(** * ChromeVox focuser: [cvox.Focuser.setFocus]

    A shallow embedding of [chromevox/common/focuser.js].  The browser is a
    value of type [World] (node heap, focused element, window selection,
    event-suspension flag, pending timers) and every call the function makes
    on the platform or on a collaborator is appended to a call log, so that
    ordering properties can be stated.  JavaScript's [null] is [None]; a
    member access on [null] is the outcome [Fault]; the [while] loop and the
    tree walks of the DomUtil helpers run on fuel. *)

From Stdlib Require Import Ascii String.
From stdpp Require Import base option list gmap strings.

Local Open Scope string_scope.
Local Open Scope nat_scope.
Local Open Scope list_scope.

(** ** DOM nodes *)

(** A node is an object reference: an address in the node heap. *)
Definition Node := nat.

(** The value of [node.constructor]. *)
Inductive Constructor :=
  | HTMLVideoElement
  | HTMLInputElement
  | HTMLIFrameElement
  | HTMLBodyElement
  | HTMLElement
  | Text
  | HTMLDocument.

Global Instance Constructor_eq_dec : EqDecision Constructor.
Proof. solve_decision. Defined.

Record NodeData := {
  constructor : Constructor;
  tagName : option string;             (* undefined on non-elements *)
  attributes : gmap string string;     (* keyed by lower-cased name *)
  parentNode : option Node;
  childNodes : list Node
}.

(** Only elements carry the attribute methods ([hasAttribute] is undefined
    on text and document nodes). *)
Definition isElement (c : Constructor) : bool :=
  match c with
  | Text | HTMLDocument => false
  | _ => true
  end.

Definition lowerAscii (c : ascii) : ascii :=
  let n := nat_of_ascii c in
  if (65 <=? n)%nat && (n <=? 90)%nat then ascii_of_nat (n + 32) else c.

(** HTML documents lower-case attribute names on every access. *)
Fixpoint lowerCase (s : string) : string :=
  match s with
  | EmptyString => EmptyString
  | String c r => String (lowerAscii c) (lowerCase r)
  end.

Record Range := {
  startContainer : Node;
  startOffset : nat;
  endContainer : Node;
  endOffset : nat
}.

Global Instance Range_eq_dec : EqDecision Range.
Proof. solve_decision. Defined.

(** The two closures handed to [window.setTimeout] (lines 83-86 and 89-91),
    each holding the variable [targetNode] it captured. *)
Inductive Callback :=
  | FocusThenExit (targetNode : option Node)
  | FocusOnly (targetNode : option Node).

(** Calls made on the platform and on the event suspender. *)
Inductive Call :=
  | Blur (n : Node)
  | SetAttribute (n : Node) (name value : string)
  | EnterSuspendEvents
  | ExitSuspendEvents
  | SetTimeout (cb : Callback)
  | Focus (n : Node)
  | Select (n : Node)
  | RemoveAllRanges
  | AddRange (r : Range).

Record World := {
  nodes : gmap Node NodeData;
  body : option Node;                  (* document.body *)
  activeElement : option Node;         (* document.activeElement *)
  selection : list Range;              (* ranges of window.getSelection() *)
  selectedText : option Node;          (* input whose whole text is selected *)
  eventsSuspended : bool;
  timers : list Callback;              (* pending zero-delay timeouts, FIFO *)
  calls : list Call
}.

Definition logCall (c : Call) (w : World) : World :=
  {| nodes := nodes w; body := body w; activeElement := activeElement w;
     selection := selection w; selectedText := selectedText w;
     eventsSuspended := eventsSuspended w; timers := timers w;
     calls := calls w ++ [c] |}.

(** ** Reading node properties *)

Definition parentNodeOf (d : gmap Node NodeData) (n : Node) : option Node :=
  d !! n ≫= parentNode.

Definition childNodesOf (d : gmap Node NodeData) (n : Node) : list Node :=
  default [] (childNodes <$> d !! n).

Definition tagNameOf (d : gmap Node NodeData) (n : Node) : option string :=
  d !! n ≫= tagName.

Definition constructorOf (d : gmap Node NodeData) (n : Node) : option Constructor :=
  constructor <$> d !! n.

Definition getAttributeOf (d : gmap Node NodeData) (n : Node) (name : string)
  : option string :=
  d !! n ≫= λ nd, attributes nd !! lowerCase name.

Definition hasAttributeMethod (d : gmap Node NodeData) (n : Node) : bool :=
  default false (isElement <$> constructorOf d n).

Definition setAttributeIn (d : gmap Node NodeData) (n : Node) (name value : string)
  : gmap Node NodeData :=
  match d !! n with
  | Some nd =>
      <[n := {| constructor := constructor nd; tagName := tagName nd;
                attributes := <[lowerCase name := value]> (attributes nd);
                parentNode := parentNode nd; childNodes := childNodes nd |}]> d
  | None => d
  end.

(** ** Outcomes and the state monad *)

Inductive Outcome (A : Type) :=
  | Done (a : A) (w : World)
  | Fault                              (* TypeError: member access on null *)
  | OutOfFuel.
Arguments Done {A} a w.
Arguments Fault {A}.
Arguments OutOfFuel {A}.

Definition M (A : Type) : Type := World → Outcome A.

Definition ret {A} (a : A) : M A := λ w, Done a w.

Definition bind {A B} (m : M A) (k : A → M B) : M B :=
  λ w, match m w with
       | Done a w' => k a w'
       | Fault => Fault
       | OutOfFuel => OutOfFuel
       end.

Declare Scope js_scope.
Delimit Scope js_scope with js.
Notation "x <- m ;; k" := (bind m (λ x, k))
  (at level 100, m at next level, right associativity) : js_scope.
Notation "m ;; k" := (bind m (λ _, k))
  (at level 100, right associativity) : js_scope.

Definition fault {A} : M A := λ _, Fault.

(** Lift a fuel-bounded pure computation over the node heap. *)
Definition liftFuel {A} (f : gmap Node NodeData → option A) : M A :=
  λ w, match f (nodes w) with
       | Some a => Done a w
       | None => OutOfFuel
       end.

Local Open Scope js_scope.

(** ** World updates made by the platform *)

Definition setNodes (d : gmap Node NodeData) (w : World) : World :=
  {| nodes := d; body := body w; activeElement := activeElement w;
     selection := selection w; selectedText := selectedText w;
     eventsSuspended := eventsSuspended w; timers := timers w;
     calls := calls w |}.

Definition setFocused (a : option Node) (sel : list Range) (w : World) : World :=
  {| nodes := nodes w; body := body w; activeElement := a;
     selection := sel; selectedText := selectedText w;
     eventsSuspended := eventsSuspended w; timers := timers w;
     calls := calls w |}.

Definition setSelection (sel : list Range) (w : World) : World :=
  setFocused (activeElement w) sel w.

Definition setSelectedText (n : option Node) (w : World) : World :=
  {| nodes := nodes w; body := body w; activeElement := activeElement w;
     selection := selection w; selectedText := n;
     eventsSuspended := eventsSuspended w; timers := timers w;
     calls := calls w |}.

Definition setSuspended (b : bool) (w : World) : World :=
  {| nodes := nodes w; body := body w; activeElement := activeElement w;
     selection := selection w; selectedText := selectedText w;
     eventsSuspended := b; timers := timers w;
     calls := calls w |}.

Definition setTimers (ts : list Callback) (w : World) : World :=
  {| nodes := nodes w; body := body w; activeElement := activeElement w;
     selection := selection w; selectedText := selectedText w;
     eventsSuspended := eventsSuspended w; timers := ts;
     calls := calls w |}.

(** The collaborators the file does not define.  [DomUtil.isFocusable] and
    [DomUtil.isInputTypeText] are platform rules on a non-null node, taken
    as an interface; so is what the browser leaves of the window selection
    when focus moves (line 37: Chrome loses it). *)
Class Platform := {
  focusable : gmap Node NodeData → Node → bool;
  inputTypeText : gmap Node NodeData → Node → bool;
  afterFocusChange : list Range → list Range
}.

Section Focuser.

Context `{Platform}.

(** *** DomUtil *)

(** Modelled from the spec: [DomUtil.isFocusable(node) -> bool], null-checked
    (spec section 7); the rule on a non-null node is the parameter. *)
Definition isFocusableIn (d : gmap Node NodeData) (node : option Node) : bool :=
  match node with
  | Some n => focusable d n
  | None => false
  end.

Definition isFocusable (node : option Node) : M bool :=
  λ w, Done (isFocusableIn (nodes w) node) w.

(** Modelled from the spec: [DomUtil.isInputTypeText(node) -> bool],
    null-checked. *)
Definition isInputTypeTextIn (d : gmap Node NodeData) (node : option Node) : bool :=
  match node with
  | Some n => inputTypeText d n
  | None => false
  end.

Definition isInputTypeText (node : option Node) : M bool :=
  λ w, Done (isInputTypeTextIn (nodes w) node) w.

(** Modelled from the spec: [DomUtil.isDescendantOfNode], absent from the
    file, called at line 45 as [isDescendantOfNode(targetNode,
    document.activeElement)]: climbs from [node] through [parentNode] looking
    for [ancestor]; the node itself counts.  [None] when the fuel runs out. *)
Fixpoint isDescendantOfNode (fuel : nat) (d : gmap Node NodeData)
    (node : option Node) (ancestor : Node) : option bool :=
  match fuel with
  | O => None
  | S fuel' =>
      match node with
      | None => Some false
      | Some n =>
          if decide (n = ancestor) then Some true
          else isDescendantOfNode fuel' d (parentNodeOf d n) ancestor
      end
  end.

(** Modelled from the spec: the pre-order traversal behind
    [DomUtil.findFocusableDescendant], over a forest kept on an explicit
    stack; it stops at the first focusable node. *)
Fixpoint searchDown (fuel : nat) (d : gmap Node NodeData) (stack : list Node)
  : option (option Node) :=
  match fuel with
  | O => None
  | S fuel' =>
      match stack with
      | [] => Some None
      | n :: rest =>
          if focusable d n then Some (Some n)
          else searchDown fuel' d (childNodesOf d n ++ rest)
      end
  end.

(** Modelled from the spec: [DomUtil.findFocusableDescendant(node) ->
    Node|null], the first focusable node in a pre-order traversal from the
    node down its children. *)
Definition findFocusableDescendant (fuel : nat) (d : gmap Node NodeData)
    (node : option Node) : option (option Node) :=
  match node with
  | None => Some None
  | Some n => searchDown fuel d (childNodesOf d n)
  end.

(** *** Platform primitives *)

(** [sel.rangeCount > 0 ? sel.getRangeAt(0) : undefined] (lines 38-42). *)
Definition getRangeAt0 : M (option Range) :=
  λ w, Done (head (selection w)) w.

Definition getActiveElement : M (option Node) :=
  λ w, Done (activeElement w) w.

(** The world after [n.blur()]: the focused element loses focus to the
    body. *)
Definition blurWorld (n : Node) (w : World) : World :=
  let w' := logCall (Blur n) w in
  if decide (activeElement w = Some n)
  then setFocused (body w) (afterFocusChange (selection w)) w'
  else w'.

Definition blur (node : option Node) : M unit :=
  match node with
  | None => fault
  | Some n => λ w, Done tt (blurWorld n w)
  end.

(** The world after [n.focus()]. *)
Definition focusWorld (n : Node) (w : World) : World :=
  let w' := logCall (Focus n) w in
  if decide (activeElement w = Some n) then w'
  else setFocused (Some n) (afterFocusChange (selection w)) w'.

Definition focus (node : option Node) : M unit :=
  match node with
  | None => fault
  | Some n => λ w, Done tt (focusWorld n w)
  end.

(** The world after [n.setAttribute(name, value)]. *)
Definition setAttributeWorld (n : Node) (name value : string) (w : World) : World :=
  setNodes (setAttributeIn (nodes w) n name value)
           (logCall (SetAttribute n name value) w).

Definition setAttribute (node : option Node) (name value : string) : M unit :=
  match node with
  | None => fault
  | Some n => λ w, Done tt (setAttributeWorld n name value w)
  end.

(** The world after [n.select()] on a text input. *)
Definition selectWorld (n : Node) (w : World) : World :=
  setSelectedText (Some n) (logCall (Select n) w).

Definition select (node : option Node) : M unit :=
  match node with
  | None => fault
  | Some n => λ w, Done tt (selectWorld n w)
  end.

Definition getTagName (node : option Node) : M (option string) :=
  match node with
  | None => fault
  | Some n => λ w, Done (tagNameOf (nodes w) n) w
  end.

Definition getParentNode (node : option Node) : M (option Node) :=
  match node with
  | None => fault
  | Some n => λ w, Done (parentNodeOf (nodes w) n) w
  end.

Definition getConstructor (node : option Node) : M (option Constructor) :=
  match node with
  | None => fault
  | Some n => λ w, Done (constructorOf (nodes w) n) w
  end.

(** Truthiness of the method [node.hasAttribute]. *)
Definition getHasAttribute (node : option Node) : M bool :=
  match node with
  | None => fault
  | Some n => λ w, Done (hasAttributeMethod (nodes w) n) w
  end.

Definition getAttribute (node : option Node) (name : string) : M (option string) :=
  match node with
  | None => fault
  | Some n => λ w, Done (getAttributeOf (nodes w) n name) w
  end.

Definition removeAllRangesWorld (w : World) : World :=
  setSelection [] (logCall RemoveAllRanges w).

Definition removeAllRanges : M unit :=
  λ w, Done tt (removeAllRangesWorld w).

Definition addRangeWorld (r : Range) (w : World) : World :=
  setSelection (selection w ++ [r]) (logCall (AddRange r) w).

Definition addRange (r : Range) : M unit :=
  λ w, Done tt (addRangeWorld r w).

(** [window.setTimeout(cb, 0)] queues the closure. *)
Definition setTimeoutWorld (cb : Callback) (w : World) : World :=
  setTimers (timers w ++ [cb]) (logCall (SetTimeout cb) w).

Definition setTimeout (cb : Callback) : M unit :=
  λ w, Done tt (setTimeoutWorld cb w).

(** *** ChromeVoxEventSuspender *)

(** Modelled from the spec: the event suspender is a process-wide boolean
    flag with [areEventsSuspended], [enterSuspendEvents] and
    [exitSuspendEvents]. *)
Definition areEventsSuspended : M bool :=
  λ w, Done (eventsSuspended w) w.

Definition enterWorld (w : World) : World :=
  setSuspended true (logCall EnterSuspendEvents w).

Definition enterSuspendEvents : M unit :=
  λ w, Done tt (enterWorld w).

Definition exitWorld (w : World) : World :=
  setSuspended false (logCall ExitSuspendEvents w).

Definition exitSuspendEvents : M unit :=
  λ w, Done tt (exitWorld w).

(** *** The focuser *)

(** [cvox.Focuser.shouldEnterSuspendEvents_] (lines 117-125). *)
Definition shouldEnterSuspendEvents_ (targetNode : option Node) : M bool :=
  c <- getConstructor targetNode ;;
  if bool_decide (c = Some HTMLVideoElement) then ret false
  else
    h <- getHasAttribute targetNode ;;
    t <- (if h then getAttribute targetNode "type" else ret None) ;;
    if h && bool_decide (t = Some "time") then ret false
    else ret true.

(** Lines 44-47: blur the focused element unless the target is below it. *)
Definition blurUnlessDescendant (fuel : nat) (targetNode : option Node) : M unit :=
  active <- getActiveElement ;;
  match active with
  | Some a =>
      desc <- liftFuel (λ d, isDescendantOfNode fuel d targetNode a) ;;
      if negb desc then blur active else ret tt
  | None => ret tt
  end.

(** Lines 50-54: video elements should always be focusable. *)
Definition makeVideoFocusable (targetNode : option Node) : M unit :=
  match targetNode with
  | Some _ =>
      c <- getConstructor targetNode ;;
      if bool_decide (c = Some HTMLVideoElement) then
        f <- isFocusable targetNode ;;
        if negb f then setAttribute targetNode "tabIndex" "0" else ret tt
      else ret tt
  | None => ret tt
  end.

(** Lines 63-65: [while (targetNode && !isFocusable(targetNode))
    targetNode = targetNode.parentNode]. *)
Fixpoint searchUp (fuel : nat) (targetNode : option Node) : M (option Node) :=
  match fuel with
  | O => λ _, OutOfFuel
  | S fuel' =>
      continue <- match targetNode with
                  | Some _ => f <- isFocusable targetNode ;; ret (negb f)
                  | None => ret false
                  end ;;
      if continue : bool then
        parent <- getParentNode targetNode ;;
        searchUp fuel' parent
      else ret targetNode
  end.

(** Lines 56-66: the new value of [targetNode]. *)
Definition resolveTarget (fuel : nat) (targetNode : option Node)
    (opt_focusDescendants : bool) : M (option Node) :=
  down <- (if opt_focusDescendants
           then f <- isFocusable targetNode ;; ret (negb f)
           else ret false) ;;
  if down : bool then
    focusableDescendant <-
      liftFuel (λ d, findFocusableDescendant fuel d targetNode) ;;
    match focusableDescendant with
    | Some _ => ret focusableDescendant
    | None => ret targetNode
    end
  else searchUp fuel targetNode.

(** Lines 69-97: focus what was found, otherwise blur. *)
Definition focusOrBlur (targetNode : option Node) : M unit :=
  f <- isFocusable targetNode ;;
  if f : bool then
    tag <- getTagName targetNode ;;
    if bool_decide (tag ≠ Some "IFRAME") then
      suspended <- areEventsSuspended ;;
      if suspended : bool then
        enter <- shouldEnterSuspendEvents_ targetNode ;;
        (if enter : bool then enterSuspendEvents else ret tt) ;;
        setTimeout (FocusThenExit targetNode)
      else
        setTimeout (FocusOnly targetNode)
    else ret tt
  else
    active <- getActiveElement ;;
    match active with
    | Some _ =>
        tag <- getTagName active ;;
        if bool_decide (tag ≠ Some "BODY") then blur active else ret tt
    | None => ret tt
    end.

(** Lines 100-105: restore the selection, unless the item is a text box. *)
Definition restoreSelection (targetNode : option Node) (range : option Range)
  : M unit :=
  text <- isInputTypeText targetNode ;;
  if text : bool then select targetNode
  else
    match range with
    | Some r => removeAllRanges ;; addRange r
    | None => ret tt
    end.

(** [cvox.Focuser.setFocus] (lines 36-106).  The JavaScript function returns
    nothing; the model returns the value its variable [targetNode] holds at
    the end, the resolved focus target. *)
Definition setFocus (fuel : nat) (targetNode : option Node)
    (opt_focusDescendants : bool) : M (option Node) :=
  range <- getRangeAt0 ;;
  blurUnlessDescendant fuel targetNode ;;
  makeVideoFocusable targetNode ;;
  targetNode <- resolveTarget fuel targetNode opt_focusDescendants ;;
  focusOrBlur targetNode ;;
  restoreSelection targetNode range ;;
  ret targetNode.

(** The body of a closure given to [setTimeout]. *)
Definition runCallback (cb : Callback) : M unit :=
  match cb with
  | FocusThenExit targetNode => focus targetNode ;; exitSuspendEvents
  | FocusOnly targetNode => focus targetNode
  end.

(** One turn of the event loop: the oldest pending timeout fires. *)
Definition runNextTimer : M unit :=
  λ w, match timers w with
       | [] => Done tt w
       | cb :: rest => runCallback cb (setTimers rest w)
       end.

End Focuser.

(** ** Properties of the node heap used in the statements *)

(** [Chain d node l]: [l] lists [node] and its ancestors, up to the root.
    Such a list exists exactly when the parent chain is finite (and so has
    no cycle). *)
Inductive Chain (d : gmap Node NodeData) : option Node → list Node → Prop :=
  | Chain_null : Chain d None []
  | Chain_step n l : Chain d (parentNodeOf d n) l → Chain d (Some n) (n :: l).

(** [Preorder d forest l]: [l] lists the nodes of the trees rooted at
    [forest] in pre-order (document order). *)
Inductive Preorder (d : gmap Node NodeData) : list Node → list Node → Prop :=
  | Preorder_nil : Preorder d [] []
  | Preorder_cons n ns l1 l2 :
      Preorder d (childNodesOf d n) l1 →
      Preorder d ns l2 →
      Preorder d (n :: ns) (n :: l1 ++ l2).

Definition childNodesOfTarget (d : gmap Node NodeData) (node : option Node)
  : list Node :=
  match node with
  | Some n => childNodesOf d n
  | None => []
  end.

(** Every node listed among the children of [p] has [p] as its parent. *)
Definition parentsMatchChildren (d : gmap Node NodeData) : Prop :=
  ∀ p c, c ∈ childNodesOf d p → parentNodeOf d c = Some p.

(** Executable versions of the three predicates, for concrete pages. *)
Fixpoint chainOf (fuel : nat) (d : gmap Node NodeData) (node : option Node)
  : option (list Node) :=
  match fuel with
  | O => None
  | S fuel' =>
      match node with
      | None => Some []
      | Some n => cons n <$> chainOf fuel' d (parentNodeOf d n)
      end
  end.

Fixpoint preorderOf (fuel : nat) (d : gmap Node NodeData) (forest : list Node)
  : option (list Node) :=
  match fuel with
  | O => None
  | S fuel' =>
      match forest with
      | [] => Some []
      | n :: ns =>
          match preorderOf fuel' d (childNodesOf d n), preorderOf fuel' d ns with
          | Some l1, Some l2 => Some (n :: l1 ++ l2)
          | _, _ => None
          end
      end
  end.

Definition parentsMatchChildrenb (d : gmap Node NodeData) : bool :=
  forallb (λ entry : Node * NodeData,
             forallb (λ c, bool_decide (parentNodeOf d c = Some entry.1))
                     (childNodes entry.2))
          (map_to_list d).

(** The node heap once lines 50-54 have run on [targetNode]. *)
Definition nodesWhenResolved `{Platform} (d : gmap Node NodeData)
    (targetNode : option Node) : gmap Node NodeData :=
  match targetNode with
  | Some n =>
      if bool_decide (constructorOf d n = Some HTMLVideoElement)
         && negb (focusable d n)
      then setAttributeIn d n "tabIndex" "0"
      else d
  | None => d
  end.

(** The world once lines 50-54 have run on [targetNode]. *)
Definition videoFocusableWorld `{Platform} (targetNode : option Node) (w : World)
  : World :=
  match targetNode with
  | Some n =>
      if bool_decide (constructorOf (nodes w) n = Some HTMLVideoElement)
         && negb (focusable (nodes w) n)
      then setAttributeWorld n "tabIndex" "0" w
      else w
  | None => w
  end.

(** The exclusion rule of [shouldEnterSuspendEvents_] on a node: a video
    element, or an element whose attribute [type] is ["time"]. *)
Definition excludedFromSuspension (d : gmap Node NodeData) (n : Node) : bool :=
  bool_decide (constructorOf d n = Some HTMLVideoElement)
  || (hasAttributeMethod d n && bool_decide (getAttributeOf d n "type" = Some "time")).

(** The calls a run added to the log. *)
Definition newCalls (w w' : World) : list Call :=
  drop (length (calls w)) (calls w').

Definition isBlur (c : Call) : bool :=
  match c with Blur _ => true | _ => false end.

Definition isSetAttribute (c : Call) : bool :=
  match c with SetAttribute _ _ _ => true | _ => false end.

(** Calls that touch focus scheduling or the suspension flag. *)
Definition isFocusCall (c : Call) : bool :=
  match c with
  | EnterSuspendEvents | ExitSuspendEvents | SetTimeout _ | Focus _ => true
  | _ => false
  end.

Definition isSelectionCall (c : Call) : bool :=
  match c with
  | Select _ | RemoveAllRanges | AddRange _ => true
  | _ => false
  end.

(** Calls the function leaves to the deferred closure. *)
Definition isDeferredCall (c : Call) : bool :=
  match c with
  | Focus _ | ExitSuspendEvents => true
  | _ => false
  end.

Definition isSetTimeout (c : Call) : bool :=
  match c with SetTimeout _ => true | _ => false end.

Definition isEnter (c : Call) : bool :=
  match c with EnterSuspendEvents => true | _ => false end.

(** The timers a call queues, read off lines 69-93: one closure when the
    target it ends with is focusable and not an iframe, none otherwise. *)
Definition queuedBy `{Platform} (suspended : bool) (d : gmap Node NodeData)
    (rt : option Node) : list Callback :=
  match rt with
  | Some n =>
      if focusable d n && bool_decide (tagNameOf d n ≠ Some "IFRAME")
      then [if suspended then FocusThenExit rt else FocusOnly rt]
      else []
  | None => []
  end.

(** The five ways lines 69-97 can go. *)
Inductive FocusStep `{Platform} (targetNode : option Node) (w : World) : World → list Call → Prop :=
  | Step_nothing :
      isFocusableIn (nodes w) targetNode = false →
      (activeElement w = None ∨
       ∃ a, activeElement w = Some a ∧ tagNameOf (nodes w) a = Some "BODY") →
      FocusStep targetNode w w []
  | Step_blur a :
      isFocusableIn (nodes w) targetNode = false →
      activeElement w = Some a →
      tagNameOf (nodes w) a ≠ Some "BODY" →
      FocusStep targetNode w (blurWorld a w) [Blur a]
  | Step_iframe n :
      targetNode = Some n →
      focusable (nodes w) n = true →
      tagNameOf (nodes w) n = Some "IFRAME" →
      FocusStep targetNode w w []
  | Step_defer n :
      targetNode = Some n →
      focusable (nodes w) n = true →
      tagNameOf (nodes w) n ≠ Some "IFRAME" →
      eventsSuspended w = false →
      FocusStep targetNode w (setTimeoutWorld (FocusOnly targetNode) w)
        [SetTimeout (FocusOnly targetNode)]
  | Step_defer_excluded n :
      targetNode = Some n →
      focusable (nodes w) n = true →
      tagNameOf (nodes w) n ≠ Some "IFRAME" →
      eventsSuspended w = true →
      excludedFromSuspension (nodes w) n = true →
      FocusStep targetNode w (setTimeoutWorld (FocusThenExit targetNode) w)
        [SetTimeout (FocusThenExit targetNode)]
  | Step_enter_defer n :
      targetNode = Some n →
      focusable (nodes w) n = true →
      tagNameOf (nodes w) n ≠ Some "IFRAME" →
      eventsSuspended w = true →
      excludedFromSuspension (nodes w) n = false →
      FocusStep targetNode w
        (setTimeoutWorld (FocusThenExit targetNode) (enterWorld w))
        [EnterSuspendEvents; SetTimeout (FocusThenExit targetNode)].


(** ** A sample page

<<
    0 #document
    1   HTML
    2     BODY
    3       DIV
    4         SPAN
    5         BUTTON   tabindex=0
    6       VIDEO
    14        A        tabindex=0
    15      VIDEO
    7       VIDEO      tabindex=0
    8       INPUT      type=time tabindex=0
    9       IFRAME     tabindex=0
    10      A          tabindex=0
    11        SPAN
    13          EM
    12      INPUT      type=text tabindex=0
>>
*)

Definition element (c : Constructor) (tag : string)
    (attrs : list (string * string)) (parent : Node) (children : list Node)
  : NodeData :=
  {| constructor := c; tagName := Some tag; attributes := list_to_map attrs;
     parentNode := Some parent; childNodes := children |}.

Definition sampleNodes : gmap Node NodeData :=
  list_to_map
    [ (0, {| constructor := HTMLDocument; tagName := None; attributes := ∅;
             parentNode := None; childNodes := [1] |});
      (1, element HTMLElement "HTML" [] 0 [2]);
      (2, element HTMLBodyElement "BODY" [] 1 [3; 6; 15; 7; 8; 9; 10; 12]);
      (3, element HTMLElement "DIV" [] 2 [4; 5]);
      (4, element HTMLElement "SPAN" [] 3 []);
      (5, element HTMLElement "BUTTON" [("tabindex", "0")] 3 []);
      (6, element HTMLVideoElement "VIDEO" [] 2 [14]);
      (14, element HTMLElement "A" [("tabindex", "0")] 6 []);
      (15, element HTMLVideoElement "VIDEO" [] 2 []);
      (7, element HTMLVideoElement "VIDEO" [("tabindex", "0")] 2 []);
      (8, element HTMLInputElement "INPUT"
            [("type", "time"); ("tabindex", "0")] 2 []);
      (9, element HTMLIFrameElement "IFRAME" [("tabindex", "0")] 2 []);
      (10, element HTMLElement "A" [("tabindex", "0")] 2 [11]);
      (11, element HTMLElement "SPAN" [] 10 [13]);
      (13, element HTMLElement "EM" [] 11 []);
      (12, element HTMLInputElement "INPUT"
             [("type", "text"); ("tabindex", "0")] 2 []) ].

(** A platform for the sample page: a node is focusable when it carries a
    [tabindex] attribute, a text input is an [input] of type [text], and a
    focus change drops the window selection. *)
Definition samplePlatform : Platform :=
  {| focusable d n := bool_decide (is_Some (getAttributeOf d n "tabindex"));
     inputTypeText d n :=
       bool_decide (constructorOf d n = Some HTMLInputElement)
       && bool_decide (getAttributeOf d n "type" = Some "text");
     afterFocusChange _ := [] |}.

Definition sampleRange : Range :=
  {| startContainer := 4; startOffset := 0; endContainer := 4; endOffset := 3 |}.

Definition sampleWorld (active : option Node) (suspended : bool)
    (sel : list Range) : World :=
  {| nodes := sampleNodes; body := Some 2; activeElement := active;
     selection := sel; selectedText := None; eventsSuspended := suspended;
     timers := []; calls := [] |}.

(** ** The node heap under [setAttribute] *)

Lemma parentNodeOf_setAttributeIn d n name value m :
  parentNodeOf (setAttributeIn d n name value) m = parentNodeOf d m.
Proof.
  unfold parentNodeOf, setAttributeIn.
  destruct (d !! n) as [nd|] eqn:E; [|done].
  destruct (decide (n = m)) as [->|Hne].
  - by rewrite lookup_insert_eq, E.
  - by rewrite lookup_insert_ne.
Qed.

Lemma childNodesOf_setAttributeIn d n name value m :
  childNodesOf (setAttributeIn d n name value) m = childNodesOf d m.
Proof.
  unfold childNodesOf, setAttributeIn.
  destruct (d !! n) as [nd|] eqn:E; [|done].
  destruct (decide (n = m)) as [->|Hne].
  - by rewrite lookup_insert_eq, E.
  - by rewrite lookup_insert_ne.
Qed.

Lemma tagNameOf_setAttributeIn d n name value m :
  tagNameOf (setAttributeIn d n name value) m = tagNameOf d m.
Proof.
  unfold tagNameOf, setAttributeIn.
  destruct (d !! n) as [nd|] eqn:E; [|done].
  destruct (decide (n = m)) as [->|Hne].
  - by rewrite lookup_insert_eq, E.
  - by rewrite lookup_insert_ne.
Qed.

Lemma constructorOf_setAttributeIn d n name value m :
  constructorOf (setAttributeIn d n name value) m = constructorOf d m.
Proof.
  unfold constructorOf, setAttributeIn.
  destruct (d !! n) as [nd|] eqn:E; [|done].
  destruct (decide (n = m)) as [->|Hne].
  - by rewrite lookup_insert_eq, E.
  - by rewrite lookup_insert_ne.
Qed.

Lemma getAttributeOf_setAttributeIn d n name value :
  is_Some (d !! n) →
  getAttributeOf (setAttributeIn d n name value) n name = Some value.
Proof.
  intros [nd E]. unfold getAttributeOf, setAttributeIn.
  rewrite E, lookup_insert_eq. simpl. by rewrite lookup_insert_eq.
Qed.

Lemma constructorOf_is_Some d n c : constructorOf d n = Some c → is_Some (d !! n).
Proof. unfold constructorOf. destruct (d !! n); [eauto | done]. Qed.

(** ** Ancestor chains *)

Lemma Chain_functional d node l1 :
  Chain d node l1 → ∀ l2, Chain d node l2 → l1 = l2.
Proof.
  induction 1 as [|n l Hl IH]; intros l2 H2; inversion H2; subst; [done|].
  f_equal. by apply IH.
Qed.

Lemma Chain_setAttributeIn d n name value node l :
  Chain d node l → Chain (setAttributeIn d n name value) node l.
Proof.
  induction 1 as [|m l Hl IH]; constructor.
  by rewrite parentNodeOf_setAttributeIn.
Qed.

(** The chain of any node on a chain is a strictly later part of it. *)
Lemma Chain_suffix d node l :
  Chain d node l → ∀ m, m ∈ l →
  ∃ l1 l2, l = l1 ++ m :: l2 ∧ Chain d (Some m) (m :: l2).
Proof.
  induction 1 as [|n l Hl IH]; intros m Hm.
  - by apply elem_of_nil in Hm.
  - apply elem_of_cons in Hm as [->|Hm].
    + exists [], l. split; [done|]. by constructor.
    + destruct (IH m Hm) as (l1 & l2 & -> & Hc).
      by exists (n :: l1), l2.
Qed.

(** A finite chain has no cycle. *)
Lemma Chain_NoDup d node l : Chain d node l → NoDup l.
Proof.
  induction 1 as [|n l Hl IH]; constructor; [|done].
  intros Hn. destruct (Chain_suffix _ _ _ Hl n Hn) as (l1 & l2 & -> & Hc).
  assert (Hc' : Chain d (Some n) (n :: l1 ++ n :: l2)) by by constructor.
  pose proof (Chain_functional _ _ _ Hc _ Hc') as Heq.
  apply (f_equal length) in Heq. simpl in Heq.
  rewrite length_app in Heq. simpl in Heq. lia.
Qed.

Lemma chainOf_sound d fuel : ∀ node l,
  chainOf fuel d node = Some l → Chain d node l.
Proof.
  induction fuel as [|fuel IH]; intros node l; simpl; [done|].
  destruct node as [n|]; [|intros [= <-]; constructor].
  destruct (chainOf fuel d (parentNodeOf d n)) as [l'|] eqn:E; simpl; [|done].
  intros [= <-]. constructor. by apply IH.
Qed.

Lemma preorderOf_sound d fuel : ∀ forest l,
  preorderOf fuel d forest = Some l → Preorder d forest l.
Proof.
  induction fuel as [|fuel IH]; intros forest l; simpl; [done|].
  destruct forest as [|n ns]; [intros [= <-]; constructor|].
  destruct (preorderOf fuel d (childNodesOf d n)) as [l1|] eqn:E1; [|done].
  destruct (preorderOf fuel d ns) as [l2|] eqn:E2; [|done].
  intros [= <-]. constructor; by apply IH.
Qed.

Lemma parentsMatchChildrenb_sound d :
  parentsMatchChildrenb d = true → parentsMatchChildren d.
Proof.
  unfold parentsMatchChildrenb, parentsMatchChildren, childNodesOf.
  rewrite forallb_forall. intros Hall p c Hc.
  destruct (d !! p) as [nd|] eqn:E; simpl in Hc; [|by apply elem_of_nil in Hc].
  assert (Hin : In (p, nd) (map_to_list d)).
  { apply list_elem_of_In. by apply elem_of_map_to_list. }
  specialize (Hall _ Hin). simpl in Hall.
  rewrite forallb_forall in Hall.
  apply list_elem_of_In in Hc. specialize (Hall _ Hc).
  by apply bool_decide_eq_true in Hall.
Qed.

Section Proofs.

Context `{Platform}.

Lemma isDescendantOfNode_chain d node l a :
  Chain d node l → ∀ fuel, length l < fuel →
  isDescendantOfNode fuel d node a = Some (bool_decide (a ∈ l)).
Proof.
  induction 1 as [|n l Hl IH]; intros [|fuel] Hf; simpl in *; try lia.
  - done.
  - destruct (decide (n = a)) as [->|Hne].
    + f_equal. symmetry. apply bool_decide_eq_true. apply elem_of_cons; auto.
    + rewrite IH by lia. f_equal. apply bool_decide_ext.
      rewrite elem_of_cons. split; [auto | intros [?|?]; [congruence | done]].
Qed.

(** The loop of lines 63-65 stops at the first focusable node of the chain. *)
Lemma searchUp_chain w node l :
  Chain (nodes w) node l → ∀ fuel, length l < fuel →
  searchUp fuel node w = Done (List.find (focusable (nodes w)) l) w.
Proof.
  induction 1 as [|n l Hl IH]; intros [|fuel] Hf; simpl in *; try lia.
  - done.
  - unfold bind, isFocusable, ret. simpl.
    destruct (focusable (nodes w) n) eqn:Ef; simpl; [done|].
    apply IH. lia.
Qed.

Lemma searchUp_pure fuel : ∀ node w rt w',
  searchUp fuel node w = Done rt w' → w' = w.
Proof.
  induction fuel as [|fuel IH]; intros node w rt w' Hs; simpl in Hs; [done|].
  unfold bind, isFocusable, ret in Hs.
  destruct node as [n|]; simpl in Hs; [|by inversion Hs].
  destruct (focusable (nodes w) n); simpl in Hs; [by inversion Hs|].
  by apply IH in Hs.
Qed.

Lemma searchUp_no_fault fuel : ∀ node w, searchUp fuel node w ≠ Fault.
Proof.
  induction fuel as [|fuel IH]; intros node w; simpl; [done|].
  unfold bind, isFocusable, ret.
  destruct node as [n|]; simpl; [|done].
  destruct (focusable (nodes w) n); simpl; [done|]. apply IH.
Qed.

(** ** Descendant search *)

Lemma Preorder_setAttributeIn d n name value forest l :
  Preorder d forest l → Preorder (setAttributeIn d n name value) forest l.
Proof.
  induction 1 as [|m ns l1 l2 H1 IH1 H2 IH2]; constructor; [|done].
  by rewrite childNodesOf_setAttributeIn.
Qed.

Lemma find_append {A} (f : A → bool) l1 l2 :
  List.find f (l1 ++ l2) =
    match List.find f l1 with
    | Some x => Some x
    | None => List.find f l2
    end.
Proof. induction l1 as [|y l1 IH]; simpl; [done|]. by destruct (f y). Qed.

(** On a stack whose top trees list as [l], the search either answers with
    the first focusable node of [l] or goes on below them. *)
Lemma searchDown_stack d forest l :
  Preorder d forest l → ∀ k rest,
  searchDown (length l + k) d (forest ++ rest) =
    match List.find (focusable d) l with
    | Some x => Some (Some x)
    | None => searchDown k d rest
    end.
Proof.
  induction 1 as [|n ns l1 l2 H1 IH1 H2 IH2]; intros k rest; [done|].
  cbn [length Nat.add app searchDown List.find].
  destruct (focusable d n); [done|].
  rewrite length_app, <- Nat.add_assoc, IH1.
  rewrite find_append. destruct (List.find (focusable d) l1); [done|].
  apply IH2.
Qed.

Lemma searchDown_preorder d forest l fuel :
  Preorder d forest l → length l < fuel →
  searchDown fuel d forest = Some (List.find (focusable d) l).
Proof.
  intros Hp Hf.
  replace fuel with (length l + S (fuel - S (length l))) by lia.
  rewrite <- (app_nil_r forest), (searchDown_stack _ _ _ Hp).
  by destruct (List.find (focusable d) l).
Qed.

Lemma findFocusableDescendant_preorder d node l fuel :
  Preorder d (childNodesOfTarget d node) l → length l < fuel →
  findFocusableDescendant fuel d node = Some (List.find (focusable d) l).
Proof.
  destruct node as [n|]; simpl.
  - apply searchDown_preorder.
  - intros Hp _. by inversion Hp.
Qed.

(** [List.find] returns the first element that passes the test. *)
Lemma find_first {A} (f : A → bool) pre x post :
  Forall (λ y, f y = false) pre → f x = true →
  List.find f (pre ++ x :: post) = Some x.
Proof.
  induction 1 as [|y pre Hy _ IH]; intros Hx; simpl.
  - by rewrite Hx.
  - rewrite Hy. by apply IH.
Qed.

Lemma find_none {A} (f : A → bool) l :
  Forall (λ y, f y = false) l → List.find f l = None.
Proof. induction 1 as [|y l Hy _ IH]; simpl; [done|]. by rewrite Hy. Qed.

Lemma find_Some_split {A} (f : A → bool) l x :
  List.find f l = Some x →
  ∃ pre post, l = pre ++ x :: post ∧ Forall (λ y, f y = false) pre ∧ f x = true.
Proof.
  induction l as [|y l IH]; simpl; [done|].
  destruct (f y) eqn:Ey.
  - intros [= ->]. exists [], l. auto.
  - intros Hx. destruct (IH Hx) as (pre & post & -> & Hpre & Hfx).
    exists (y :: pre), post. auto.
Qed.

Lemma find_None_Forall {A} (f : A → bool) l :
  List.find f l = None → Forall (λ y, f y = false) l.
Proof.
  induction l as [|y l IH]; simpl; [constructor|].
  destruct (f y) eqn:Ey; [done|]. intros Hl. constructor; auto.
Qed.

(** Under consistent parent links, every node listed below a forest has
    one of its roots on its own chain. *)
Lemma Preorder_chain d forest l :
  parentsMatchChildren d → Preorder d forest l →
  ∀ x lx, x ∈ l → Chain d (Some x) lx → ∃ r, r ∈ forest ∧ r ∈ lx.
Proof.
  intros Hwf. induction 1 as [|n ns l1 l2 H1 IH1 H2 IH2]; intros x lx Hx Hc.
  - by apply elem_of_nil in Hx.
  - apply elem_of_cons in Hx as [->|Hx].
    + exists n. split; [apply elem_of_cons; auto|].
      inversion Hc; subst. apply elem_of_cons; auto.
    + apply elem_of_app in Hx as [Hx|Hx].
      * destruct (IH1 x lx Hx Hc) as (c & Hcn & Hcx).
        exists n. split; [apply elem_of_cons; auto|].
        destruct (Chain_suffix _ _ _ Hc c Hcx) as (la & lb & -> & Hcc).
        inversion Hcc as [|? ? Hp]; subst.
        rewrite (Hwf n c Hcn) in Hp. inversion Hp; subst.
        apply elem_of_app. right. apply elem_of_cons. right.
        apply elem_of_cons. auto.
      * destruct (IH2 x lx Hx Hc) as (r & Hr & Hrx).
        exists r. split; [apply elem_of_cons; auto | done].
Qed.

(** A node in the subtrees below [n] is not an ancestor of [n]. *)
Lemma descendant_not_ancestor d n anc desc x :
  parentsMatchChildren d →
  Chain d (Some n) (n :: anc) →
  Preorder d (childNodesOf d n) desc →
  x ∈ desc → x ∉ anc.
Proof.
  intros Hwf Hc Hp Hx Hanc.
  assert (Hxl : x ∈ n :: anc) by (apply elem_of_cons; auto).
  destruct (Chain_suffix _ _ _ Hc x Hxl) as (la & lb & Hl & Hcx).
  destruct (Preorder_chain _ _ _ Hwf Hp x _ Hx Hcx) as (c & Hcn & Hcx').
  destruct (Chain_suffix _ _ _ Hcx c Hcx') as (lc & ld & Hl' & Hcc).
  inversion Hcc as [|? ? Hpc]; subst.
  rewrite (Hwf n c Hcn) in Hpc.
  pose proof (Chain_functional _ _ _ Hc _ Hpc) as Heq.
  pose proof (Chain_NoDup _ _ _ Hc) as Hnd.
  apply (f_equal length) in Hl, Hl', Heq.
  rewrite ?length_app in *. simpl in *. rewrite ?length_app in *. simpl in *.
  assert (la = []) as ->.
  { destruct la as [|y la]; [done|].
    simpl in *. lia. }
  simpl in *. lia.
Qed.

(** ** The phases of [setFocus] *)

Lemma calls_blurWorld a w : calls (blurWorld a w) = calls w ++ [Blur a].
Proof. unfold blurWorld. by destruct (decide _). Qed.

Lemma nodes_blurWorld a w : nodes (blurWorld a w) = nodes w.
Proof. unfold blurWorld. by destruct (decide _). Qed.

Lemma timers_blurWorld a w : timers (blurWorld a w) = timers w.
Proof. unfold blurWorld. by destruct (decide _). Qed.

Lemma eventsSuspended_blurWorld a w :
  eventsSuspended (blurWorld a w) = eventsSuspended w.
Proof. unfold blurWorld. by destruct (decide _). Qed.

Lemma selectedText_blurWorld a w : selectedText (blurWorld a w) = selectedText w.
Proof. unfold blurWorld. by destruct (decide _). Qed.

(** Lines 44-47 on a finite chain. *)
Lemma blurUnlessDescendant_chain fuel targetNode w l :
  Chain (nodes w) targetNode l → length l < fuel →
  blurUnlessDescendant fuel targetNode w =
    Done tt match activeElement w with
            | Some a => if bool_decide (a ∈ l) then w else blurWorld a w
            | None => w
            end.
Proof.
  intros Hc Hf. unfold blurUnlessDescendant, bind, getActiveElement, liftFuel.
  destruct (activeElement w) as [a|]; [|done].
  rewrite (isDescendantOfNode_chain _ _ _ a Hc) by done.
  by destruct (bool_decide (a ∈ l)).
Qed.

Lemma blurUnlessDescendant_inv fuel targetNode w u w1 :
  blurUnlessDescendant fuel targetNode w = Done u w1 →
  w1 = w ∨ ∃ a, activeElement w = Some a ∧ w1 = blurWorld a w.
Proof.
  unfold blurUnlessDescendant, bind, getActiveElement, liftFuel.
  destruct (activeElement w) as [a|]; [|intros [= _ <-]; auto].
  destruct (isDescendantOfNode _ _ _ _) as [[]|]; simpl; [| |done].
  - intros [= _ <-]; auto.
  - intros [= _ <-]; eauto.
Qed.

Lemma blurUnlessDescendant_no_fault fuel targetNode w :
  blurUnlessDescendant fuel targetNode w ≠ Fault.
Proof.
  unfold blurUnlessDescendant, bind, getActiveElement, liftFuel.
  destruct (activeElement w) as [a|]; [|done].
  by destruct (isDescendantOfNode _ _ _ _) as [[]|].
Qed.

(** Lines 50-54. *)
Lemma makeVideoFocusable_spec targetNode w :
  makeVideoFocusable targetNode w = Done tt (videoFocusableWorld targetNode w).
Proof.
  unfold makeVideoFocusable, videoFocusableWorld.
  destruct targetNode as [n|]; [|done].
  unfold bind, getConstructor, isFocusable, isFocusableIn.
  destruct (bool_decide _); [|done].
  by destruct (focusable (nodes w) n).
Qed.

Lemma nodes_videoFocusableWorld targetNode w :
  nodes (videoFocusableWorld targetNode w) = nodesWhenResolved (nodes w) targetNode.
Proof.
  unfold videoFocusableWorld, nodesWhenResolved.
  destruct targetNode as [n|]; [|done]. by destruct (_ && _).
Qed.

Lemma frame_videoFocusableWorld targetNode w :
  let w' := videoFocusableWorld targetNode w in
  activeElement w' = activeElement w ∧ selection w' = selection w ∧
  selectedText w' = selectedText w ∧ eventsSuspended w' = eventsSuspended w ∧
  timers w' = timers w ∧ body w' = body w.
Proof.
  unfold videoFocusableWorld.
  destruct targetNode as [n|]; [|done]. by destruct (_ && _).
Qed.

(** Lines 56-66 only read the world. *)
Lemma resolveTarget_pure fuel targetNode fd w rt w' :
  resolveTarget fuel targetNode fd w = Done rt w' → w' = w.
Proof.
  unfold resolveTarget, bind, isFocusable, ret, liftFuel.
  destruct fd; simpl.
  - destruct (isFocusableIn (nodes w) targetNode); simpl.
    + apply searchUp_pure.
    + destruct (findFocusableDescendant _ _ _) as [[x|]|]; by intros [= _ <-].
  - apply searchUp_pure.
Qed.

Lemma resolveTarget_no_fault fuel targetNode fd w :
  resolveTarget fuel targetNode fd w ≠ Fault.
Proof.
  unfold resolveTarget, bind, isFocusable, ret, liftFuel.
  destruct fd; simpl.
  - destruct (isFocusableIn (nodes w) targetNode); simpl.
    + apply searchUp_no_fault.
    + by destruct (findFocusableDescendant _ _ _) as [[x|]|].
  - apply searchUp_no_fault.
Qed.

(** The [else] branch (lines 61-66) is the loop. *)
Lemma resolveTarget_up fuel targetNode fd w :
  fd = false ∨ isFocusableIn (nodes w) targetNode = true →
  resolveTarget fuel targetNode fd w = searchUp fuel targetNode w.
Proof.
  unfold resolveTarget, bind, isFocusable, ret.
  intros [->|Hf]; [done|]. destruct fd; simpl; [|done]. by rewrite Hf.
Qed.

(** The [then] branch (lines 56-60) is the descendant search. *)
Lemma resolveTarget_down fuel targetNode w :
  isFocusableIn (nodes w) targetNode = false →
  resolveTarget fuel targetNode true w =
    match findFocusableDescendant fuel (nodes w) targetNode with
    | Some (Some x) => Done (Some x) w
    | Some None => Done targetNode w
    | None => OutOfFuel
    end.
Proof.
  unfold resolveTarget, bind, isFocusable, ret, liftFuel.
  intros ->. simpl. by destruct (findFocusableDescendant _ _ _) as [[x|]|].
Qed.

(** Lines 117-125 on a non-null node. *)
Lemma shouldEnterSuspendEvents__spec n w :
  shouldEnterSuspendEvents_ (Some n) w =
    Done (negb (excludedFromSuspension (nodes w) n)) w.
Proof.
  unfold shouldEnterSuspendEvents_, excludedFromSuspension, bind,
    getConstructor, getHasAttribute, getAttribute, ret.
  destruct (bool_decide (constructorOf (nodes w) n = Some HTMLVideoElement));
    [done|].
  destruct (hasAttributeMethod (nodes w) n); simpl; [|done].
  by destruct (bool_decide _).
Qed.

(** Lines 69-93 on a focusable target. *)
Lemma focusOrBlur_focusable n w :
  focusable (nodes w) n = true →
  focusOrBlur (Some n) w =
    Done tt
      (if bool_decide (tagNameOf (nodes w) n ≠ Some "IFRAME") then
         if eventsSuspended w then
           setTimeoutWorld (FocusThenExit (Some n))
             (if excludedFromSuspension (nodes w) n then w else enterWorld w)
         else setTimeoutWorld (FocusOnly (Some n)) w
       else w).
Proof.
  intros Hf. unfold focusOrBlur, bind at 1. unfold isFocusable. simpl.
  rewrite Hf. unfold bind at 1. unfold getTagName.
  destruct (bool_decide _); [|done].
  unfold bind at 1. unfold areEventsSuspended.
  destruct (eventsSuspended w); [|done].
  unfold bind at 1. rewrite shouldEnterSuspendEvents__spec.
  by destruct (excludedFromSuspension (nodes w) n).
Qed.

(** Lines 94-97: nothing focusable was found. *)
Lemma focusOrBlur_unfocusable targetNode w :
  isFocusableIn (nodes w) targetNode = false →
  focusOrBlur targetNode w =
    Done tt match activeElement w with
            | Some a =>
                if bool_decide (tagNameOf (nodes w) a ≠ Some "BODY")
                then blurWorld a w else w
            | None => w
            end.
Proof.
  intros Hf. unfold focusOrBlur, bind at 1. unfold isFocusable.
  rewrite Hf. unfold bind, getActiveElement, getTagName.
  destruct (activeElement w) as [a|]; [|done].
  by destruct (bool_decide _).
Qed.

Lemma focusOrBlur_no_fault targetNode w : focusOrBlur targetNode w ≠ Fault.
Proof.
  destruct (isFocusableIn (nodes w) targetNode) eqn:Hf.
  - destruct targetNode as [n|]; [|done].
    by rewrite focusOrBlur_focusable.
  - by rewrite focusOrBlur_unfocusable.
Qed.

(** Lines 100-105. *)
Lemma restoreSelection_text n range w :
  inputTypeText (nodes w) n = true →
  restoreSelection (Some n) range w = Done tt (selectWorld n w).
Proof.
  intros Ht. unfold restoreSelection, bind, isInputTypeText. simpl.
  by rewrite Ht.
Qed.

Lemma restoreSelection_other targetNode range w :
  isInputTypeTextIn (nodes w) targetNode = false →
  restoreSelection targetNode range w =
    Done tt match range with
            | Some r => addRangeWorld r (removeAllRangesWorld w)
            | None => w
            end.
Proof.
  intros Ht. unfold restoreSelection, bind at 1. unfold isInputTypeText.
  rewrite Ht. by destruct range.
Qed.

Lemma restoreSelection_no_fault targetNode range w :
  restoreSelection targetNode range w ≠ Fault.
Proof.
  destruct (isInputTypeTextIn (nodes w) targetNode) eqn:Ht.
  - destruct targetNode as [n|]; [|done].
    by rewrite restoreSelection_text.
  - by rewrite restoreSelection_other.
Qed.

(** [setFocus] is its five phases in sequence. *)
Lemma setFocus_inv fuel targetNode fd w rt w' :
  setFocus fuel targetNode fd w = Done rt w' →
  ∃ w1 w3,
    blurUnlessDescendant fuel targetNode w = Done tt w1 ∧
    resolveTarget fuel targetNode fd (videoFocusableWorld targetNode w1)
      = Done rt (videoFocusableWorld targetNode w1) ∧
    focusOrBlur rt (videoFocusableWorld targetNode w1) = Done tt w3 ∧
    restoreSelection rt (head (selection w)) w3 = Done tt w'.
Proof.
  unfold setFocus, bind at 1. unfold getRangeAt0.
  unfold bind at 1.
  destruct (blurUnlessDescendant fuel targetNode w) as [[] w1| |] eqn:E1; [|done..].
  unfold bind at 1. rewrite makeVideoFocusable_spec.
  unfold bind at 1.
  destruct (resolveTarget _ _ _ _) as [rt' w2| |] eqn:E2; [|done..].
  pose proof (resolveTarget_pure _ _ _ _ _ _ E2) as ->.
  unfold bind at 1.
  destruct (focusOrBlur _ _) as [[] w3| |] eqn:E3; [|done..].
  unfold bind at 1.
  destruct (restoreSelection _ _ _) as [[] w4| |] eqn:E4; [|done..].
  unfold ret. intros [= <- <-]. eauto 10.
Qed.

Lemma setFocus_compose fuel targetNode fd w w1 rt w3 w' :
  blurUnlessDescendant fuel targetNode w = Done tt w1 →
  resolveTarget fuel targetNode fd (videoFocusableWorld targetNode w1)
    = Done rt (videoFocusableWorld targetNode w1) →
  focusOrBlur rt (videoFocusableWorld targetNode w1) = Done tt w3 →
  restoreSelection rt (head (selection w)) w3 = Done tt w' →
  setFocus fuel targetNode fd w = Done rt w'.
Proof.
  intros E1 E2 E3 E4. unfold setFocus, bind at 1. unfold getRangeAt0.
  unfold bind at 1. rewrite E1.
  unfold bind at 1. rewrite makeVideoFocusable_spec.
  unfold bind at 1. rewrite E2.
  unfold bind at 1. rewrite E3.
  unfold bind at 1. by rewrite E4.
Qed.

Lemma setFocus_no_fault fuel targetNode fd w :
  setFocus fuel targetNode fd w ≠ Fault.
Proof.
  unfold setFocus, bind at 1. unfold getRangeAt0.
  unfold bind at 1.
  destruct (blurUnlessDescendant fuel targetNode w) as [[] w1| |] eqn:E1;
    [|by apply blurUnlessDescendant_no_fault in E1|done].
  unfold bind at 1. rewrite makeVideoFocusable_spec.
  unfold bind at 1.
  destruct (resolveTarget _ _ _ _) as [rt' w2| |] eqn:E2;
    [|by apply resolveTarget_no_fault in E2|done].
  unfold bind at 1.
  destruct (focusOrBlur _ _) as [[] w3| |] eqn:E3;
    [|by apply focusOrBlur_no_fault in E3|done].
  unfold bind at 1.
  destruct (restoreSelection _ _ _) as [[] w4| |] eqn:E4;
    [done|by apply restoreSelection_no_fault in E4|done].
Qed.

(** ** Bookkeeping on the call log *)

Lemma newCalls_app w w' new : calls w' = calls w ++ new → newCalls w w' = new.
Proof. intros E. unfold newCalls. rewrite E. apply drop_app_length. Qed.

(** Lines 38-54 blur and set an attribute, nothing else. *)
Lemma prelude_frame fuel targetNode w w1 :
  blurUnlessDescendant fuel targetNode w = Done tt w1 →
  let w2 := videoFocusableWorld targetNode w1 in
  ∃ pre,
    calls w2 = calls w ++ pre ∧
    List.filter isFocusCall pre = [] ∧
    List.filter isSelectionCall pre = [] ∧
    nodes w1 = nodes w ∧
    nodes w2 = nodesWhenResolved (nodes w) targetNode ∧
    eventsSuspended w2 = eventsSuspended w ∧
    timers w2 = timers w ∧
    selectedText w2 = selectedText w ∧
    activeElement w2 = activeElement w1 ∧
    selection w2 = selection w1.
Proof.
  intros E1 w2.
  assert (∃ b, calls w1 = calls w ++ b ∧ List.filter isFocusCall b = [] ∧
               List.filter isSelectionCall b = [] ∧ nodes w1 = nodes w ∧
               eventsSuspended w1 = eventsSuspended w ∧ timers w1 = timers w ∧
               selectedText w1 = selectedText w) as (b & Hb & Hb1 & Hb2 & Hn & He & Ht & Hs).
  { apply blurUnlessDescendant_inv in E1 as [->|(a & Ha & ->)].
    - exists []. by rewrite app_nil_r.
    - exists [Blur a].
      rewrite calls_blurWorld, nodes_blurWorld, eventsSuspended_blurWorld,
        timers_blurWorld, selectedText_blurWorld. done. }
  pose proof (nodes_videoFocusableWorld targetNode w1) as Hn2.
  destruct (frame_videoFocusableWorld targetNode w1)
    as (Ha2 & Hsel2 & Hst2 & He2 & Ht2 & _).
  fold w2 in Hn2, Ha2, Hsel2, Hst2, He2, Ht2.
  assert (∃ v, calls w2 = calls w1 ++ v ∧ List.filter isFocusCall v = [] ∧
               List.filter isSelectionCall v = []) as (v & Hv & Hv1 & Hv2).
  { subst w2. unfold videoFocusableWorld.
    destruct targetNode as [n|]; [|exists []; by rewrite app_nil_r].
    destruct (_ && _).
    - by exists [SetAttribute n "tabIndex" "0"].
    - exists []. by rewrite app_nil_r. }
  exists (b ++ v). rewrite Hv, Hb, <- app_assoc, !List.filter_app, Hb1, Hb2, Hv1, Hv2.
  rewrite Hn2, Hn, He2, He, Ht2, Ht, Hst2, Hs. done.
Qed.

(** Lines 100-105 touch the selection only. *)
Lemma restoreSelection_frame targetNode range w3 w' :
  restoreSelection targetNode range w3 = Done tt w' →
  ∃ post,
    calls w' = calls w3 ++ post ∧
    List.filter isFocusCall post = [] ∧
    List.filter isBlur post = [] ∧
    nodes w' = nodes w3 ∧
    eventsSuspended w' = eventsSuspended w3 ∧
    timers w' = timers w3 ∧
    activeElement w' = activeElement w3 ∧
    List.filter isSetAttribute post = [].
Proof.
  destruct (isInputTypeTextIn (nodes w3) targetNode) eqn:Ht.
  - destruct targetNode as [n|]; [|done].
    rewrite restoreSelection_text by done. intros [= <-].
    by exists [Select n].
  - rewrite restoreSelection_other by done. intros [= <-].
    destruct range as [r|].
    + exists [RemoveAllRanges; AddRange r]. simpl. by rewrite <- app_assoc.
    + exists []. by rewrite app_nil_r.
Qed.

(** Lines 69-97 leave the selection and the attributes alone. *)
Lemma focusOrBlur_frame targetNode w w3 :
  focusOrBlur targetNode w = Done tt w3 →
  ∃ mid,
    calls w3 = calls w ++ mid ∧
    List.filter isSelectionCall mid = [] ∧
    List.filter isSetAttribute mid = [] ∧
    selectedText w3 = selectedText w.
Proof.
  destruct (isFocusableIn (nodes w) targetNode) eqn:Hf.
  - destruct targetNode as [n|]; [|done].
    rewrite focusOrBlur_focusable by done. intros [= <-].
    destruct (bool_decide _); [|exists []; by rewrite app_nil_r].
    destruct (eventsSuspended w).
    + destruct (excludedFromSuspension _ _).
      * by exists [SetTimeout (FocusThenExit (Some n))].
      * exists [EnterSuspendEvents; SetTimeout (FocusThenExit (Some n))].
        simpl. by rewrite <- app_assoc.
    + by exists [SetTimeout (FocusOnly (Some n))].
  - rewrite focusOrBlur_unfocusable by done. intros [= <-].
    destruct (activeElement w) as [a|]; [|exists []; by rewrite app_nil_r].
    destruct (bool_decide _); [|exists []; by rewrite app_nil_r].
    exists [Blur a]. by rewrite calls_blurWorld, selectedText_blurWorld.
Qed.

Lemma focusOrBlur_done targetNode w : ∃ w3, focusOrBlur targetNode w = Done tt w3.
Proof.
  destruct (isFocusableIn (nodes w) targetNode) eqn:Hf.
  - destruct targetNode as [n|]; [|done].
    rewrite focusOrBlur_focusable by done. eauto.
  - rewrite focusOrBlur_unfocusable by done. eauto.
Qed.

Lemma restoreSelection_done targetNode range w :
  ∃ w', restoreSelection targetNode range w = Done tt w'.
Proof.
  destruct (isInputTypeTextIn (nodes w) targetNode) eqn:Ht.
  - destruct targetNode as [n|]; [|done].
    rewrite restoreSelection_text by done. eauto.
  - rewrite restoreSelection_other by done. eauto.
Qed.

(** Once the two fuel-bounded steps have answered, the call completes. *)
Lemma setFocus_done fuel targetNode fd w w1 rt :
  blurUnlessDescendant fuel targetNode w = Done tt w1 →
  resolveTarget fuel targetNode fd (videoFocusableWorld targetNode w1)
    = Done rt (videoFocusableWorld targetNode w1) →
  ∃ w', setFocus fuel targetNode fd w = Done rt w'.
Proof.
  intros E1 E2.
  destruct (focusOrBlur_done rt (videoFocusableWorld targetNode w1)) as [w3 E3].
  destruct (restoreSelection_done rt (head (selection w)) w3) as [w' E4].
  exists w'. eapply setFocus_compose; eauto.
Qed.

Lemma blurUnlessDescendant_done fuel targetNode w l :
  Chain (nodes w) targetNode l → length l < fuel →
  ∃ w1, blurUnlessDescendant fuel targetNode w = Done tt w1.
Proof. intros Hc Hf. rewrite (blurUnlessDescendant_chain _ _ _ _ Hc Hf). eauto. Qed.

Lemma Chain_nodesWhenResolved d targetNode node l :
  Chain d node l → Chain (nodesWhenResolved d targetNode) node l.
Proof.
  intros Hc. unfold nodesWhenResolved. destruct targetNode as [n|]; [|done].
  destruct (_ && _); [|done]. by apply Chain_setAttributeIn.
Qed.

Lemma Preorder_nodesWhenResolved d targetNode forest l :
  Preorder d forest l → Preorder (nodesWhenResolved d targetNode) forest l.
Proof.
  intros Hp. unfold nodesWhenResolved. destruct targetNode as [n|]; [|done].
  destruct (_ && _); [|done]. by apply Preorder_setAttributeIn.
Qed.

Lemma childNodesOf_nodesWhenResolved d targetNode m :
  childNodesOf (nodesWhenResolved d targetNode) m = childNodesOf d m.
Proof.
  unfold nodesWhenResolved. destruct targetNode as [n|]; [|done].
  destruct (_ && _); [|done]. apply childNodesOf_setAttributeIn.
Qed.

Lemma childNodesOfTarget_nodesWhenResolved d targetNode node :
  childNodesOfTarget (nodesWhenResolved d targetNode) node
  = childNodesOfTarget d node.
Proof.
  destruct node as [m|]; [|done]. apply childNodesOf_nodesWhenResolved.
Qed.

(** On a finite tree the call completes. *)
Lemma setFocus_terminates fuel targetNode fd w l desc :
  Chain (nodes w) targetNode l → length l < fuel →
  Preorder (nodes w) (childNodesOfTarget (nodes w) targetNode) desc →
  length desc < fuel →
  ∃ rt w', setFocus fuel targetNode fd w = Done rt w'.
Proof.
  intros Hc Hf Hp Hd.
  destruct (blurUnlessDescendant_done _ _ _ _ Hc Hf) as [w1 E1].
  destruct (prelude_frame _ _ _ _ E1) as (pre & _ & _ & _ & Hn1 & Hn2 & _).
  set (w2 := videoFocusableWorld targetNode w1) in *.
  assert (∃ rt, resolveTarget fuel targetNode fd w2 = Done rt w2) as [rt E2].
  { destruct (bool_decide (fd = false ∨ isFocusableIn (nodes w2) targetNode = true))
      eqn:Hb.
    - apply bool_decide_eq_true in Hb. rewrite (resolveTarget_up _ _ _ _ Hb).
      rewrite (searchUp_chain w2 targetNode l); [eauto| |done].
      rewrite Hn2. by apply Chain_nodesWhenResolved.
    - apply bool_decide_eq_false in Hb.
      destruct fd; [|by destruct Hb; auto].
      destruct (isFocusableIn (nodes w2) targetNode) eqn:Ef; [by destruct Hb; auto|].
      rewrite resolveTarget_down by done.
      rewrite (findFocusableDescendant_preorder _ _ desc); [| |done].
      + destruct (List.find _ desc); eauto.
      + rewrite Hn2, childNodesOfTarget_nodesWhenResolved.
        by apply Preorder_nodesWhenResolved. }
  destruct (setFocus_done _ _ _ _ _ _ E1 E2) as [w' E]. eauto.
Qed.

Lemma focusOrBlur_nodes targetNode w w3 :
  focusOrBlur targetNode w = Done tt w3 → nodes w3 = nodes w.
Proof.
  destruct (isFocusableIn (nodes w) targetNode) eqn:Hf.
  - destruct targetNode as [n|]; [|done].
    rewrite focusOrBlur_focusable by done. intros [= <-].
    destruct (bool_decide _); [|done].
    destruct (eventsSuspended w); [|done].
    by destruct (excludedFromSuspension _ _).
  - rewrite focusOrBlur_unfocusable by done. intros [= <-].
    destruct (activeElement w) as [a|]; [|done].
    destruct (bool_decide _); [|done]. apply nodes_blurWorld.
Qed.

(** The heap the call ends with is the heap the target was resolved on. *)
Lemma setFocus_nodes fuel targetNode fd w rt w' :
  setFocus fuel targetNode fd w = Done rt w' →
  nodes w' = nodesWhenResolved (nodes w) targetNode.
Proof.
  intros E. apply setFocus_inv in E as (w1 & w3 & E1 & E2 & E3 & E4).
  destruct (prelude_frame _ _ _ _ E1) as (pre & _ & _ & _ & _ & Hn2 & _).
  apply focusOrBlur_nodes in E3.
  apply restoreSelection_frame in E4 as (post & _ & _ & _ & Hn4 & _).
  congruence.
Qed.

(** The shape of a call that resolved a focusable node [n]: a prelude
    without focus calls, the focus step of lines 75-93, the selection
    step. *)
Lemma setFocus_focusable_run fuel targetNode fd w n w' :
  setFocus fuel targetNode fd w = Done (Some n) w' →
  focusable (nodes w') n = true →
  ∃ w2 pre post,
    calls w2 = calls w ++ pre ∧
    List.filter isFocusCall pre = [] ∧
    nodes w2 = nodes w' ∧
    eventsSuspended w2 = eventsSuspended w ∧
    timers w2 = timers w ∧
    let w3 :=
      if bool_decide (tagNameOf (nodes w2) n ≠ Some "IFRAME") then
        if eventsSuspended w2 then
          setTimeoutWorld (FocusThenExit (Some n))
            (if excludedFromSuspension (nodes w2) n then w2 else enterWorld w2)
        else setTimeoutWorld (FocusOnly (Some n)) w2
      else w2 in
    calls w' = calls w3 ++ post ∧
    List.filter isFocusCall post = [] ∧
    eventsSuspended w' = eventsSuspended w3 ∧
    timers w' = timers w3.
Proof.
  intros E Hf.
  pose proof (setFocus_nodes _ _ _ _ _ _ E) as Hn.
  apply setFocus_inv in E as (w1 & w3 & E1 & E2 & E3 & E4).
  destruct (prelude_frame _ _ _ _ E1)
    as (pre & Hpre & Hpre1 & _ & _ & Hn2 & He2 & Ht2 & _).
  set (w2 := videoFocusableWorld targetNode w1) in *.
  rewrite <- Hn in Hn2.
  rewrite focusOrBlur_focusable in E3 by (by rewrite Hn2).
  injection E3 as <-.
  apply restoreSelection_frame in E4
    as (post & Hpost & Hpost1 & _ & _ & He4 & Ht4 & _).
  exists w2, pre, post. auto 10.
Qed.

(** The deferred closure of lines 83-86: focus, then leave suspension. *)
Lemma runCallback_FocusThenExit n w :
  runCallback (FocusThenExit (Some n)) w = Done tt (exitWorld (focusWorld n w)) ∧
  calls (exitWorld (focusWorld n w)) = calls w ++ [Focus n; ExitSuspendEvents] ∧
  eventsSuspended (exitWorld (focusWorld n w)) = false.
Proof.
  split; [done|]. split; [|done].
  unfold exitWorld, focusWorld. simpl.
  destruct (decide _); simpl; by rewrite <- app_assoc.
Qed.

Lemma excludedFromSuspension_false d n :
  constructorOf d n ≠ Some HTMLVideoElement →
  getAttributeOf d n "type" ≠ Some "time" →
  excludedFromSuspension d n = false.
Proof.
  intros Hv Ht. unfold excludedFromSuspension.
  rewrite (bool_decide_eq_false_2 _ Hv), (bool_decide_eq_false_2 _ Ht).
  by rewrite andb_false_r.
Qed.

(** ** The claims *)

(** C2.  Events are suspended at call time and the call resolves a focusable
    node [n] that is not an iframe, not a video element and has no attribute
    [type] equal to ["time"] (on the heap the call ends with, which is the
    heap the target was resolved on).  Then, among the calls that touch focus or
    suspension, the call makes exactly [enterSuspendEvents] and, right after
    it, the [setTimeout] that defers the focus; the deferred closure, whenever
    it runs, calls [n.focus()] and immediately after it
    [exitSuspendEvents]. *)
Theorem setFocus_suspended_enters_then_exits fuel targetNode fd w n w' :
  eventsSuspended w = true →
  setFocus fuel targetNode fd w = Done (Some n) w' →
  focusable (nodes w') n = true →
  tagNameOf (nodes w') n ≠ Some "IFRAME" →
  constructorOf (nodes w') n ≠ Some HTMLVideoElement →
  getAttributeOf (nodes w') n "type" ≠ Some "time" →
  (∃ before after,
     newCalls w w' =
       before ++ [EnterSuspendEvents; SetTimeout (FocusThenExit (Some n))] ++ after ∧
     List.filter isFocusCall before = [] ∧
     List.filter isFocusCall after = []) ∧
  timers w' = timers w ++ [FocusThenExit (Some n)] ∧
  ∀ later,
    runCallback (FocusThenExit (Some n)) later
      = Done tt (exitWorld (focusWorld n later)) ∧
    calls (exitWorld (focusWorld n later))
      = calls later ++ [Focus n; ExitSuspendEvents].
Proof.
  intros Hs E Hf Htag Hv Ht.
  destruct (setFocus_focusable_run _ _ _ _ _ _ E Hf)
    as (w2 & pre & post & Hpre & Hpre1 & Hn2 & He2 & Ht2 & Hpost & Hpost1 & He' & Ht').
  rewrite Hn2, He2, Hs in *.
  rewrite (bool_decide_eq_true_2 _ Htag),
    (excludedFromSuspension_false _ _ Hv Ht) in *.
  split; [|split].
  - exists pre, post. split; [|done].
    apply newCalls_app. rewrite Hpost. simpl. rewrite Hpre.
    by rewrite <- !app_assoc.
  - rewrite Ht'. simpl. by rewrite Ht2.
  - intros later. destruct (runCallback_FocusThenExit n later) as (? & ? & _).
    done.
Qed.

(** C1.  Events are suspended at call time and the call resolves a focusable
    node [n] that is not an iframe and falls under the exclusion rule (a
    video element, or attribute [type] equal to ["time"]).  The synchronous
    part does not call [enterSuspendEvents] and leaves the flag set, but the
    closure it defers is the one of lines 83-86: when it runs it calls
    [exitSuspendEvents] after [n.focus()] and clears the flag. *)
Theorem setFocus_excluded_target_still_exits fuel targetNode fd w n w' :
  eventsSuspended w = true →
  setFocus fuel targetNode fd w = Done (Some n) w' →
  focusable (nodes w') n = true →
  tagNameOf (nodes w') n ≠ Some "IFRAME" →
  excludedFromSuspension (nodes w') n = true →
  List.filter isFocusCall (newCalls w w') = [SetTimeout (FocusThenExit (Some n))] ∧
  eventsSuspended w' = true ∧
  timers w' = timers w ++ [FocusThenExit (Some n)] ∧
  ∀ later,
    runCallback (FocusThenExit (Some n)) later
      = Done tt (exitWorld (focusWorld n later)) ∧
    calls (exitWorld (focusWorld n later))
      = calls later ++ [Focus n; ExitSuspendEvents] ∧
    eventsSuspended (exitWorld (focusWorld n later)) = false.
Proof.
  intros Hs E Hf Htag Hx.
  destruct (setFocus_focusable_run _ _ _ _ _ _ E Hf)
    as (w2 & pre & post & Hpre & Hpre1 & Hn2 & He2 & Ht2 & Hpost & Hpost1 & He' & Ht').
  rewrite Hn2, He2, Hs in *.
  rewrite (bool_decide_eq_true_2 _ Htag), Hx in *.
  split; [|split; [|split]].
  - rewrite (newCalls_app w w' (pre ++ [SetTimeout (FocusThenExit (Some n))] ++ post)).
    + by rewrite !List.filter_app, Hpre1, Hpost1.
    + rewrite Hpost. simpl. rewrite Hpre. by rewrite <- !app_assoc.
  - rewrite He'. simpl. by rewrite He2.
  - rewrite Ht'. simpl. by rewrite Ht2.
  - intros later. apply runCallback_FocusThenExit.
Qed.

(** C6.  The call resolves a focusable node whose tag is [IFRAME].  Then it
    makes no call that touches focus or suspension: no [focus], no
    [setTimeout], no [enterSuspendEvents], no [exitSuspendEvents]; no timer
    is queued and the suspension flag is what it was. *)
Theorem setFocus_iframe_not_focused fuel targetNode fd w n w' :
  setFocus fuel targetNode fd w = Done (Some n) w' →
  focusable (nodes w') n = true →
  tagNameOf (nodes w') n = Some "IFRAME" →
  List.filter isFocusCall (newCalls w w') = [] ∧
  timers w' = timers w ∧
  eventsSuspended w' = eventsSuspended w.
Proof.
  intros E Hf Htag.
  destruct (setFocus_focusable_run _ _ _ _ _ _ E Hf)
    as (w2 & pre & post & Hpre & Hpre1 & Hn2 & He2 & Ht2 & Hpost & Hpost1 & He' & Ht').
  rewrite Hn2 in *.
  rewrite bool_decide_eq_false_2 in * by (intros Hne; by apply Hne).
  split; [|split].
  - rewrite (newCalls_app w w' (pre ++ post)).
    + by rewrite List.filter_app, Hpre1, Hpost1.
    + by rewrite Hpost, Hpre, <- app_assoc.
  - congruence.
  - congruence.
Qed.

(** C8.  A range [R] is selected when the call starts.  If the resolved
    target is a text input, the only selection call is [select()] on it: its
    text is selected and [R] is not added back.  Otherwise the call ends by
    [removeAllRanges()] and [addRange(R)], its only selection calls, and the
    window selection is then exactly [R]. *)
Theorem setFocus_restores_selection fuel targetNode fd w R others rt w' :
  selection w = R :: others →
  setFocus fuel targetNode fd w = Done rt w' →
  if isInputTypeTextIn (nodes w') rt then
    ∃ n, rt = Some n ∧
         List.filter isSelectionCall (newCalls w w') = [Select n] ∧
         selectedText w' = Some n
  else
    selection w' = [R] ∧
    ∃ before,
      newCalls w w' = before ++ [RemoveAllRanges; AddRange R] ∧
      List.filter isSelectionCall before = [].
Proof.
  intros Hsel E.
  apply setFocus_inv in E as (w1 & w3 & E1 & E2 & E3 & E4).
  destruct (prelude_frame _ _ _ _ E1) as (pre & Hpre & _ & Hpre2 & _).
  destruct (focusOrBlur_frame _ _ _ E3) as (mid & Hmid & Hmid1 & _).
  assert (Hn : nodes w' = nodes w3).
  { by apply restoreSelection_frame in E4 as (post & _ & _ & _ & Hn4 & _). }
  rewrite Hsel in E4. simpl in E4. rewrite Hn.
  destruct (isInputTypeTextIn (nodes w3) rt) eqn:Ht.
  - destruct rt as [n|]; [|done].
    rewrite restoreSelection_text in E4 by done. injection E4 as <-.
    exists n. split; [done|]. split; [|done].
    rewrite (newCalls_app w _ (pre ++ mid ++ [Select n])).
    + by rewrite !List.filter_app, Hpre2, Hmid1.
    + simpl. rewrite Hmid, Hpre. by rewrite <- !app_assoc.
  - rewrite restoreSelection_other in E4 by done. injection E4 as <-.
    split; [done|]. exists (pre ++ mid). split.
    + apply newCalls_app. simpl. rewrite Hmid, Hpre. by rewrite <- !app_assoc.
    + by rewrite List.filter_app, Hpre2, Hmid1.
Qed.

(** What lines 44-47 log: at most one blur. *)
Lemma blurUnlessDescendant_calls fuel targetNode w w1 :
  blurUnlessDescendant fuel targetNode w = Done tt w1 →
  ∃ blurs,
    calls w1 = calls w ++ blurs ∧
    Forall (λ c, isBlur c = true) blurs ∧
    nodes w1 = nodes w.
Proof.
  intros E1. apply blurUnlessDescendant_inv in E1 as [->|(a & Ha & ->)].
  - exists []. by rewrite app_nil_r.
  - exists [Blur a]. rewrite calls_blurWorld, nodes_blurWorld.
    repeat split. by constructor.
Qed.

(** C10.  The target is a video element.  If it is not focusable when the
    call starts, the call sets its attribute [tabIndex] to ["0"]: only blurs
    come before that call in the log, the attribute is in the heap from then
    on, and the target is resolved on the heap that has it.  If the element
    is already focusable, no attribute is set and the heap is unchanged. *)
Theorem setFocus_video_tabindex fuel n fd w rt w' :
  constructorOf (nodes w) n = Some HTMLVideoElement →
  setFocus fuel (Some n) fd w = Done rt w' →
  if focusable (nodes w) n then
    nodes w' = nodes w ∧ List.filter isSetAttribute (newCalls w w') = []
  else
    nodes w' = setAttributeIn (nodes w) n "tabIndex" "0" ∧
    getAttributeOf (nodes w') n "tabIndex" = Some "0" ∧
    (∃ before after,
       newCalls w w' = before ++ SetAttribute n "tabIndex" "0" :: after ∧
       Forall (λ c, isBlur c = true) before ∧
       List.filter isSetAttribute after = []) ∧
    ∃ w1,
      blurUnlessDescendant fuel (Some n) w = Done tt w1 ∧
      resolveTarget fuel (Some n) fd (setAttributeWorld n "tabIndex" "0" w1)
        = Done rt (setAttributeWorld n "tabIndex" "0" w1).
Proof.
  intros Hv E.
  pose proof (setFocus_nodes _ _ _ _ _ _ E) as Hn.
  apply setFocus_inv in E as (w1 & w3 & E1 & E2 & E3 & E4).
  destruct (blurUnlessDescendant_calls _ _ _ _ E1) as (blurs & Hb & Hb1 & Hn1).
  destruct (focusOrBlur_frame _ _ _ E3) as (mid & Hmid & _ & Hmid2 & _).
  apply restoreSelection_frame in E4 as (post & Hpost & _ & _ & _ & _ & _ & _ & Hpost2).
  unfold nodesWhenResolved in Hn. unfold videoFocusableWorld in *.
  rewrite Hn1, (bool_decide_eq_true_2 _ Hv) in *. simpl in *.
  destruct (focusable (nodes w) n); simpl in *.
  - split; [done|].
    rewrite (newCalls_app w w' (blurs ++ mid ++ post)).
    + rewrite !List.filter_app, Hmid2, Hpost2, !app_nil_r.
      clear -Hb1. induction Hb1 as [|c blurs Hc _ IH]; [done|].
      destruct c; simpl in *; done.
    + rewrite Hpost, Hmid, Hb. by rewrite <- !app_assoc.
  - split; [done|]. split.
    { rewrite Hn. apply getAttributeOf_setAttributeIn.
      by apply constructorOf_is_Some in Hv. }
    split; [|eauto].
    exists blurs, (mid ++ post). split; [|split; [done|]].
    + apply newCalls_app. rewrite Hpost, Hmid. simpl. rewrite Hb.
      by rewrite <- !app_assoc.
    + by rewrite List.filter_app, Hmid2, Hpost2.
Qed.

(** C3.  An element [a] holds focus when the call starts and [l] is the
    chain of the target (the target, then its ancestors).  Lines 44-47 blur
    [a] exactly when [a] is not on that chain; the rest of the call (target
    resolution, focus or blur, selection) then runs from the world that step
    left.  So when [a] is not on the chain, [a.blur()] is the first call of
    the run; when it is, no blur has been made and [a] still holds focus when
    the target is resolved. *)
Theorem setFocus_blurs_unless_descendant fuel targetNode fd w a l rt w' :
  activeElement w = Some a →
  Chain (nodes w) targetNode l →
  length l < fuel →
  setFocus fuel targetNode fd w = Done rt w' →
  let w1 := if bool_decide (a ∈ l) then w else blurWorld a w in
  blurUnlessDescendant fuel targetNode w = Done tt w1 ∧
  (∃ w3,
     resolveTarget fuel targetNode fd (videoFocusableWorld targetNode w1)
       = Done rt (videoFocusableWorld targetNode w1) ∧
     focusOrBlur rt (videoFocusableWorld targetNode w1) = Done tt w3 ∧
     restoreSelection rt (head (selection w)) w3 = Done tt w') ∧
  (a ∉ l → ∃ rest, newCalls w w' = Blur a :: rest) ∧
  (a ∈ l → calls w1 = calls w ∧ activeElement w1 = Some a).
Proof.
  intros Ha Hc Hf E w1.
  apply setFocus_inv in E as (w1' & w3 & E1 & E2 & E3 & E4).
  pose proof (blurUnlessDescendant_chain _ _ _ _ Hc Hf) as E1'.
  rewrite Ha in E1'. fold w1 in E1'.
  assert (w1' = w1) as -> by congruence.
  split; [done|]. split; [eauto|]. split.
  - intros Hnot.
    destruct (focusOrBlur_frame _ _ _ E3) as (mid & Hmid & _).
    apply restoreSelection_frame in E4 as (post & Hpost & _).
    assert (∃ v, calls (videoFocusableWorld targetNode w1) = calls w1 ++ v)
      as [v Hv].
    { unfold videoFocusableWorld. destruct targetNode as [n|];
        [|exists []; by rewrite app_nil_r].
      destruct (_ && _); [by eexists|exists []; by rewrite app_nil_r]. }
    exists (v ++ mid ++ post). apply newCalls_app.
    rewrite Hpost, Hmid, Hv. subst w1.
    rewrite (bool_decide_eq_false_2 _ Hnot), calls_blurWorld.
    by rewrite <- !app_assoc.
  - intros Hin. subst w1. by rewrite (bool_decide_eq_true_2 _ Hin).
Qed.

Lemma tagNameOf_nodesWhenResolved d targetNode m :
  tagNameOf (nodesWhenResolved d targetNode) m = tagNameOf d m.
Proof.
  unfold nodesWhenResolved. destruct targetNode as [n|]; [|done].
  destruct (_ && _); [|done]. apply tagNameOf_setAttributeIn.
Qed.

(** C9.  [l] is the finite parent chain of the target and the descendant
    branch is not taken ([focusDescendants] is false, or the target is
    focusable when line 56 tests it).  Then the call completes, and the
    resolved target is what the loop of lines 63-65 returns: the first
    focusable node of the chain, or null when no node of the chain is
    focusable. *)
Theorem setFocus_walks_up_parent_chain fuel targetNode fd w l :
  Chain (nodes w) targetNode l →
  length l < fuel →
  let d := nodesWhenResolved (nodes w) targetNode in
  fd = false ∨ isFocusableIn d targetNode = true →
  ∃ rt w',
    setFocus fuel targetNode fd w = Done rt w' ∧
    (∀ w2, nodes w2 = d → searchUp fuel targetNode w2 = Done rt w2) ∧
    rt = List.find (focusable d) l ∧
    match rt with
    | Some m =>
        ∃ pre post, l = pre ++ m :: post ∧
                    Forall (λ x, focusable d x = false) pre ∧
                    focusable d m = true
    | None => Forall (λ x, focusable d x = false) l
    end.
Proof.
  intros Hc Hf d Hup.
  destruct (blurUnlessDescendant_done _ _ _ _ Hc Hf) as [w1 E1].
  destruct (prelude_frame _ _ _ _ E1) as (pre & _ & _ & _ & _ & Hn2 & _).
  fold d in Hn2.
  assert (Hloop : ∀ w2, nodes w2 = d →
            searchUp fuel targetNode w2 = Done (List.find (focusable d) l) w2).
  { intros w2 Hw2. rewrite (searchUp_chain w2 targetNode l), Hw2; [done| |done].
    rewrite Hw2. by apply Chain_nodesWhenResolved. }
  assert (E2 : resolveTarget fuel targetNode fd (videoFocusableWorld targetNode w1)
               = Done (List.find (focusable d) l) (videoFocusableWorld targetNode w1)).
  { rewrite resolveTarget_up by (by rewrite Hn2). by apply Hloop. }
  destruct (setFocus_done _ _ _ _ _ _ E1 E2) as [w' E].
  exists (List.find (focusable d) l), w'.
  split; [done|]. split; [done|]. split; [done|].
  destruct (List.find (focusable d) l) as [m|] eqn:Efind.
  - by apply find_Some_split.
  - by apply find_None_Forall.
Qed.

(** C4, as amended.  [setFocus(N, true)] on a finite, consistently linked
    tree, where [N] is not focusable when line 56 tests it, that is on the
    heap left by the video special case of lines 50-54, and [D] is the first
    focusable node in the pre-order listing [desc] of the nodes below [N].
    The call completes with [D] as resolved target, and [D] is neither [N]
    nor one of its ancestors. *)
Theorem setFocus_first_focusable_descendant fuel w n anc desc pre D post :
  parentsMatchChildren (nodes w) →
  Chain (nodes w) (Some n) (n :: anc) →
  Preorder (nodes w) (childNodesOf (nodes w) n) desc →
  length (n :: anc) < fuel →
  length desc < fuel →
  let d := nodesWhenResolved (nodes w) (Some n) in
  focusable d n = false →
  desc = pre ++ D :: post →
  Forall (λ x, focusable d x = false) pre →
  focusable d D = true →
  (∃ w', setFocus fuel (Some n) true w = Done (Some D) w') ∧
  D ≠ n ∧ D ∉ anc.
Proof.
  intros Hwf Hc Hp Hf Hfd d Hn Hdesc Hpre HD.
  split; [|split].
  - destruct (blurUnlessDescendant_done _ _ _ _ Hc Hf) as [w1 E1].
    destruct (prelude_frame _ _ _ _ E1) as (pre' & _ & _ & _ & _ & Hn2 & _).
    fold d in Hn2.
    apply (setFocus_done _ _ _ _ _ _ E1).
    rewrite resolveTarget_down by (rewrite Hn2; exact Hn).
    rewrite (findFocusableDescendant_preorder _ _ desc), Hn2; [| |done].
    + subst desc. by rewrite find_first.
    + rewrite Hn2. subst d. rewrite childNodesOfTarget_nodesWhenResolved.
      by apply Preorder_nodesWhenResolved.
  - intros ->. congruence.
  - apply (descendant_not_ancestor (nodes w) n anc desc D); [done..|].
    subst desc. apply elem_of_app. right. apply elem_of_cons. auto.
Qed.

(** The blurs of a call that ends in the branch of lines 94-97, counted from
    the world [w1] that lines 44-47 left. *)
Lemma unfocusable_tail fuel targetNode w w1 rt w3 w' :
  blurUnlessDescendant fuel targetNode w = Done tt w1 →
  focusOrBlur rt (videoFocusableWorld targetNode w1) = Done tt w3 →
  restoreSelection rt (head (selection w)) w3 = Done tt w' →
  isFocusableIn (nodes (videoFocusableWorld targetNode w1)) rt = false →
  List.filter isFocusCall (newCalls w w') = [] ∧
  timers w' = timers w ∧
  List.filter isBlur (newCalls w1 w') =
    match activeElement w1 with
    | Some a =>
        if bool_decide (tagNameOf (nodes w) a ≠ Some "BODY") then [Blur a] else []
    | None => []
    end.
Proof.
  intros E1 E3 E4 Hf.
  destruct (prelude_frame _ _ _ _ E1)
    as (pre & Hpre & Hpre1 & _ & Hn1 & Hn2 & _ & Ht2 & _ & Ha2 & _).
  set (w2 := videoFocusableWorld targetNode w1) in *.
  assert (∃ v, calls w2 = calls w1 ++ v ∧ List.filter isBlur v = [])
    as (v & Hv & Hv1).
  { subst w2. unfold videoFocusableWorld. destruct targetNode as [n|];
      [|exists []; by rewrite app_nil_r].
    destruct (_ && _); [by eexists|exists []; by rewrite app_nil_r]. }
  rewrite focusOrBlur_unfocusable in E3 by done. injection E3 as <-.
  apply restoreSelection_frame in E4
    as (post & Hpost & Hpost1 & Hpost2 & _ & _ & Ht4 & _).
  rewrite Ha2, Hn2 in Hpost, Ht4.
  destruct (activeElement w1) as [a|].
  - rewrite tagNameOf_nodesWhenResolved in Hpost, Ht4.
    destruct (bool_decide (tagNameOf (nodes w) a ≠ Some "BODY")).
    + rewrite calls_blurWorld in Hpost. rewrite timers_blurWorld in Ht4.
      split; [|split; [congruence|]].
      * rewrite (newCalls_app w w' (pre ++ [Blur a] ++ post)).
        -- by rewrite !List.filter_app, Hpre1, Hpost1.
        -- rewrite Hpost, Hpre. by rewrite <- !app_assoc.
      * rewrite (newCalls_app w1 w' (v ++ [Blur a] ++ post)).
        -- by rewrite !List.filter_app, Hv1, Hpost2.
        -- rewrite Hpost, Hv. by rewrite <- !app_assoc.
    + split; [|split; [congruence|]].
      * rewrite (newCalls_app w w' (pre ++ post)).
        -- by rewrite !List.filter_app, Hpre1, Hpost1.
        -- by rewrite Hpost, Hpre, <- app_assoc.
      * rewrite (newCalls_app w1 w' (v ++ post)).
        -- by rewrite !List.filter_app, Hv1, Hpost2.
        -- by rewrite Hpost, Hv, <- app_assoc.
  - split; [|split; [congruence|]].
    + rewrite (newCalls_app w w' (pre ++ post)).
      * by rewrite !List.filter_app, Hpre1, Hpost1.
      * by rewrite Hpost, Hpre, <- app_assoc.
    + rewrite (newCalls_app w1 w' (v ++ post)).
      * by rewrite !List.filter_app, Hv1, Hpost2.
      * by rewrite Hpost, Hv, <- app_assoc.
Qed.

(** C5, as amended.  [setFocus(N, true)] on a finite tree where neither [N]
    nor any node below it is focusable when line 56 tests them, that is on
    the heap left by the video special case of lines 50-54.  Nothing is assumed of
    the ancestors of [N]: they are not looked at.  The call completes with
    [N] itself as the target, defers no focus and touches no suspension, and
    takes the branch of lines 94-97: after the step of lines 44-47 its only
    blur is that of the element then focused, if its tag is not [BODY]. *)
Theorem setFocus_no_focusable_descendant fuel w n l desc :
  Chain (nodes w) (Some n) l →
  Preorder (nodes w) (childNodesOf (nodes w) n) desc →
  length l < fuel →
  length desc < fuel →
  let d := nodesWhenResolved (nodes w) (Some n) in
  focusable d n = false →
  Forall (λ x, focusable d x = false) desc →
  ∃ w1 w',
    blurUnlessDescendant fuel (Some n) w = Done tt w1 ∧
    setFocus fuel (Some n) true w = Done (Some n) w' ∧
    List.filter isFocusCall (newCalls w w') = [] ∧
    timers w' = timers w ∧
    List.filter isBlur (newCalls w1 w') =
      match activeElement w1 with
      | Some a =>
          if bool_decide (tagNameOf (nodes w) a ≠ Some "BODY") then [Blur a] else []
      | None => []
      end.
Proof.
  intros Hc Hp Hf Hfd d Hn Hdesc.
  destruct (blurUnlessDescendant_done _ _ _ _ Hc Hf) as [w1 E1].
  destruct (prelude_frame _ _ _ _ E1) as (pre' & _ & _ & _ & _ & Hn2 & _).
  fold d in Hn2.
  assert (E2 : resolveTarget fuel (Some n) true (videoFocusableWorld (Some n) w1)
               = Done (Some n) (videoFocusableWorld (Some n) w1)).
  { rewrite resolveTarget_down by (rewrite Hn2; exact Hn).
    rewrite (findFocusableDescendant_preorder _ _ desc), Hn2; [| |done].
    - by rewrite find_none.
    - rewrite Hn2. subst d. rewrite childNodesOfTarget_nodesWhenResolved.
      by apply Preorder_nodesWhenResolved. }
  destruct (setFocus_done _ _ _ _ _ _ E1 E2) as [w' E].
  exists w1, w'. split; [done|]. split; [done|].
  apply setFocus_inv in E as (w1' & w3 & E1' & _ & E3 & E4).
  assert (w1' = w1) as -> by congruence.
  apply (unfocusable_tail _ _ _ _ _ _ _ E1 E3 E4).
  rewrite Hn2. exact Hn.
Qed.

Lemma calls_after_blur_step fuel targetNode w w1 rt w3 w' :
  blurUnlessDescendant fuel targetNode w = Done tt w1 →
  focusOrBlur rt (videoFocusableWorld targetNode w1) = Done tt w3 →
  restoreSelection rt (head (selection w)) w3 = Done tt w' →
  calls w' = calls w1 ++ newCalls w1 w'.
Proof.
  intros E1 E3 E4.
  assert (∃ v, calls (videoFocusableWorld targetNode w1) = calls w1 ++ v)
    as [v Hv].
  { unfold videoFocusableWorld. destruct targetNode as [n|];
      [|exists []; by rewrite app_nil_r].
    destruct (_ && _); [by eexists|exists []; by rewrite app_nil_r]. }
  destruct (focusOrBlur_frame _ _ _ E3) as (mid & Hmid & _).
  apply restoreSelection_frame in E4 as (post & Hpost & _).
  assert (Hall : calls w' = calls w1 ++ (v ++ mid ++ post)).
  { rewrite Hpost, Hmid, Hv. by rewrite <- !app_assoc. }
  by rewrite (newCalls_app _ _ _ Hall).
Qed.

(** C7, as amended.  No call faults, and on a finite tree every call
    completes.  When the target the call ends with is not focusable (null
    included): nothing is deferred; after the step of lines 44-47, which
    blurs the focused element or does nothing, the only blur is the one of
    lines 94-97, of the element then focused if its tag is not [BODY]; an
    element focused at call time whose tag is not [BODY] is blurred; and
    with no focused element nothing is blurred. *)
Theorem setFocus_nothing_focusable :
  (∀ fuel targetNode fd w, setFocus fuel targetNode fd w ≠ Fault) ∧
  (∀ fuel targetNode fd w l desc,
     Chain (nodes w) targetNode l →
     length l < fuel →
     Preorder (nodes w) (childNodesOfTarget (nodes w) targetNode) desc →
     length desc < fuel →
     ∃ rt w', setFocus fuel targetNode fd w = Done rt w') ∧
  (∀ fuel targetNode fd w rt w',
     setFocus fuel targetNode fd w = Done rt w' →
     isFocusableIn (nodes w') rt = false →
     List.filter isFocusCall (newCalls w w') = [] ∧
     (∃ w1,
        blurUnlessDescendant fuel targetNode w = Done tt w1 ∧
        (w1 = w ∨ ∃ a, activeElement w = Some a ∧ w1 = blurWorld a w) ∧
        List.filter isBlur (newCalls w1 w') =
          match activeElement w1 with
          | Some a =>
              if bool_decide (tagNameOf (nodes w) a ≠ Some "BODY")
              then [Blur a] else []
          | None => []
          end) ∧
     (∀ a, activeElement w = Some a →
           tagNameOf (nodes w) a ≠ Some "BODY" →
           Blur a ∈ newCalls w w') ∧
     (activeElement w = None → List.filter isBlur (newCalls w w') = [])).
Proof.
  split; [apply setFocus_no_fault|]. split; [apply setFocus_terminates|].
  intros fuel targetNode fd w rt w' E Hf.
  pose proof (setFocus_nodes _ _ _ _ _ _ E) as Hn.
  apply setFocus_inv in E as (w1 & w3 & E1 & E2 & E3 & E4).
  destruct (prelude_frame _ _ _ _ E1) as (pre & _ & _ & _ & _ & Hn2 & _).
  rewrite <- Hn in Hn2. rewrite <- Hn2 in Hf.
  destruct (unfocusable_tail _ _ _ _ _ _ _ E1 E3 E4 Hf) as (Hfc & _ & Hblur).
  pose proof (calls_after_blur_step _ _ _ _ _ _ _ E1 E3 E4) as Hcalls.
  pose proof (blurUnlessDescendant_inv _ _ _ _ _ E1) as Hinv.
  split; [done|]. split; [eauto|]. split.
  - intros a Ha Htag. destruct Hinv as [->|(a' & Ha' & ->)].
    + rewrite Ha, (bool_decide_eq_true_2 _ Htag) in Hblur.
      apply list_elem_of_In.
      apply (proj1 (List.filter_In isBlur (Blur a) (newCalls w w'))).
      rewrite Hblur. by left.
    + assert (a' = a) as -> by congruence.
      rewrite calls_blurWorld, <- app_assoc in Hcalls.
      rewrite (newCalls_app _ _ _ Hcalls). apply elem_of_cons. auto.
  - intros Ha. destruct Hinv as [->|(a' & Ha' & ->)]; [|congruence].
    by rewrite Ha in Hblur.
Qed.

End Proofs.

(** ** Further properties of [setFocus] *)

Section Further.

Context `{Platform}.

Lemma focusOrBlur_step targetNode w w3 :
  focusOrBlur targetNode w = Done tt w3 →
  ∃ mid, FocusStep targetNode w w3 mid ∧ calls w3 = calls w ++ mid.
Proof.
  destruct (isFocusableIn (nodes w) targetNode) eqn:Hf.
  - destruct targetNode as [n|]; [|done]. simpl in Hf.
    rewrite focusOrBlur_focusable by done. intros [= <-].
    destruct (decide (tagNameOf (nodes w) n = Some "IFRAME")) as [Ht|Ht].
    + rewrite bool_decide_eq_false_2 by (intros Hne; by apply Hne).
      exists []. split; [by eapply Step_iframe|by rewrite app_nil_r].
    + rewrite (bool_decide_eq_true_2 _ Ht).
      destruct (eventsSuspended w) eqn:Hs.
      * destruct (excludedFromSuspension (nodes w) n) eqn:Hx.
        -- eexists. split; [by eapply Step_defer_excluded|done].
        -- eexists. split; [by eapply Step_enter_defer|].
           simpl. by rewrite <- app_assoc.
      * eexists. split; [by eapply Step_defer|done].
  - rewrite focusOrBlur_unfocusable by done. intros [= <-].
    destruct (activeElement w) as [a|] eqn:Ha.
    + destruct (decide (tagNameOf (nodes w) a = Some "BODY")) as [Ht|Ht].
      * rewrite bool_decide_eq_false_2 by (intros Hne; by apply Hne).
        exists []. split; [|by rewrite app_nil_r].
        apply Step_nothing; [done|]. right. eauto.
      * rewrite (bool_decide_eq_true_2 _ Ht).
        exists [Blur a]. split; [by apply Step_blur|apply calls_blurWorld].
    + exists []. split; [|by rewrite app_nil_r].
      apply Step_nothing; auto.
Qed.

(** A completed call, cut at the two places where the world changes hands:
    [w2] after lines 38-54, [w3] after lines 69-97. *)
Lemma setFocus_run fuel targetNode fd w rt w' :
  setFocus fuel targetNode fd w = Done rt w' →
  ∃ w1 w2 w3 pre mid post,
    blurUnlessDescendant fuel targetNode w = Done tt w1 ∧
    w2 = videoFocusableWorld targetNode w1 ∧
    resolveTarget fuel targetNode fd w2 = Done rt w2 ∧
    FocusStep rt w2 w3 mid ∧
    restoreSelection rt (head (selection w)) w3 = Done tt w' ∧
    calls w2 = calls w ++ pre ∧
    newCalls w w' = pre ++ mid ++ post ∧
    List.filter isFocusCall pre = [] ∧
    List.filter isSelectionCall pre = [] ∧
    List.filter isFocusCall post = [] ∧
    List.filter isBlur post = [] ∧
    nodes w2 = nodes w' ∧
    eventsSuspended w2 = eventsSuspended w ∧
    timers w2 = timers w ∧
    selectedText w2 = selectedText w ∧
    eventsSuspended w' = eventsSuspended w3 ∧
    timers w' = timers w3.
Proof.
  intros E.
  pose proof (setFocus_nodes _ _ _ _ _ _ E) as Hn.
  apply setFocus_inv in E as (w1 & w3 & E1 & E2 & E3 & E4).
  destruct (prelude_frame _ _ _ _ E1)
    as (pre & Hpre & Hpre1 & Hpre2 & _ & Hn2 & He2 & Ht2 & Hs2 & _).
  destruct (focusOrBlur_step _ _ _ E3) as (mid & Hstep & Hmid).
  destruct (restoreSelection_frame _ _ _ _ E4)
    as (post & Hpost & Hpost1 & Hpost2 & _ & He4 & Ht4 & _).
  exists w1, (videoFocusableWorld targetNode w1), w3, pre, mid, post.
  repeat split; try done; try congruence.
  apply newCalls_app. rewrite Hpost, Hmid, Hpre. by rewrite <- !app_assoc.
Qed.


Lemma filter_nil_weaken {A} (f g : A → bool) l :
  (∀ x, g x = true → f x = true) →
  List.filter f l = [] → List.filter g l = [].
Proof.
  intros Hfg. induction l as [|x l IH]; simpl; [done|].
  destruct (f x) eqn:Ef; [done|]. intros Hl.
  destruct (g x) eqn:Eg; [|by apply IH].
  apply Hfg in Eg. congruence.
Qed.

Lemma deferred_is_focus_call c : isDeferredCall c = true → isFocusCall c = true.
Proof. by destruct c. Qed.

(** X1.  Events are not suspended when the call starts, and the call ends
    with a focusable target [n] that is not an iframe (lines 88-92).  Then
    the one focus-related call is the [setTimeout] of the focus-only closure;
    the suspender is not called and the flag stays clear; the closure, when
    it runs, calls [n.focus()] and nothing else, leaving the flag alone. *)
Theorem setFocus_unsuspended_defers_focus_only fuel targetNode fd w n w' :
  eventsSuspended w = false →
  setFocus fuel targetNode fd w = Done (Some n) w' →
  focusable (nodes w') n = true →
  tagNameOf (nodes w') n ≠ Some "IFRAME" →
  List.filter isFocusCall (newCalls w w') = [SetTimeout (FocusOnly (Some n))] ∧
  timers w' = timers w ++ [FocusOnly (Some n)] ∧
  eventsSuspended w' = false ∧
  ∀ later,
    runCallback (FocusOnly (Some n)) later = Done tt (focusWorld n later) ∧
    calls (focusWorld n later) = calls later ++ [Focus n] ∧
    eventsSuspended (focusWorld n later) = eventsSuspended later.
Proof.
  intros Hs E Hf Htag.
  destruct (setFocus_run _ _ _ _ _ _ E)
    as (w1 & w2 & w3 & pre & mid & post & _ & _ & _ & Hstep & _ & _ & Hnew
        & Hpre1 & _ & Hpost1 & _ & Hn2 & He2 & Ht2 & _ & He' & Ht').
  rewrite <- Hn2 in Hf, Htag. rewrite Hs in He2.
  rewrite Hnew, !List.filter_app, Hpre1, Hpost1, app_nil_r. simpl.
  inversion Hstep; subst; simplify_eq; try congruence.
  - simpl in *. congruence.
  - simpl in *. congruence.
  - repeat split; try done.
    + rewrite Ht'. simpl. by rewrite Ht2.
    + rewrite He'. done.
    + unfold focusWorld. by destruct (decide _).
    + unfold focusWorld. by destruct (decide _).
Qed.

(** X2.  Whatever the call does, it never calls [focus()] or
    [exitSuspendEvents] itself (lines 76-78: the focus is always deferred),
    and the suspension flag reads the same after the call as before it. *)
Theorem setFocus_never_focuses_synchronously fuel targetNode fd w rt w' :
  setFocus fuel targetNode fd w = Done rt w' →
  List.filter isDeferredCall (newCalls w w') = [] ∧
  eventsSuspended w' = eventsSuspended w.
Proof.
  intros E.
  destruct (setFocus_run _ _ _ _ _ _ E)
    as (w1 & w2 & w3 & pre & mid & post & _ & _ & _ & Hstep & _ & _ & Hnew
        & Hpre1 & _ & Hpost1 & _ & _ & He2 & _ & _ & He' & _).
  rewrite Hnew, !List.filter_app.
  rewrite (filter_nil_weaken _ _ pre deferred_is_focus_call Hpre1).
  rewrite (filter_nil_weaken _ _ post deferred_is_focus_call Hpost1).
  rewrite He'.
  inversion Hstep; subst; simpl; rewrite ?eventsSuspended_blurWorld;
    split; try done; congruence.
Qed.

Lemma queuedBy_unfocusable suspended d rt :
  isFocusableIn d rt = false → queuedBy suspended d rt = [].
Proof. destruct rt as [n|]; [|done]. simpl. by intros ->. Qed.

Lemma set_timeout_is_focus_call c : isSetTimeout c = true → isFocusCall c = true.
Proof. by destruct c. Qed.

Lemma enter_is_focus_call c : isEnter c = true → isFocusCall c = true.
Proof. by destruct c. Qed.

(** The timers and [setTimeout] calls of a completed call. *)
Lemma setFocus_queues_one_closure_aux fuel targetNode fd w rt w' :
  setFocus fuel targetNode fd w = Done rt w' →
  let queued := queuedBy (eventsSuspended w) (nodes w') rt in
  timers w' = timers w ++ queued ∧
  List.filter isSetTimeout (newCalls w w') = SetTimeout <$> queued ∧
  ∀ cb later, cb ∈ queued → ∃ later', runCallback cb later = Done tt later'.
Proof.
  intros E queued.
  destruct (setFocus_run _ _ _ _ _ _ E)
    as (w1 & w2 & w3 & pre & mid & post & _ & _ & _ & Hstep & _ & _ & Hnew
        & Hpre1 & _ & Hpost1 & _ & Hn2 & He2 & Ht2 & _ & _ & Ht').
  subst queued. rewrite <- Hn2, <- He2, Ht', <- Ht2, Hnew, !List.filter_app.
  rewrite (filter_nil_weaken _ _ pre set_timeout_is_focus_call Hpre1).
  rewrite (filter_nil_weaken _ _ post set_timeout_is_focus_call Hpost1).
  rewrite app_nil_r. simpl.
  inversion Hstep as [Hf _|a Hf _ _|n -> Hf Htag|n -> Hf Htag Hs
                      |n -> Hf Htag Hs Hx|n -> Hf Htag Hs Hx]; subst.
  - rewrite queuedBy_unfocusable by done. rewrite app_nil_r.
    repeat split; try done. intros cb later Hcb. by apply elem_of_nil in Hcb.
  - rewrite queuedBy_unfocusable by done.
    rewrite timers_blurWorld, app_nil_r.
    repeat split; try done. intros cb later Hcb. by apply elem_of_nil in Hcb.
  - simpl. rewrite Hf, bool_decide_eq_false_2 by (intros Hne; by apply Hne).
    simpl. rewrite app_nil_r.
    repeat split; try done. intros cb later Hcb. by apply elem_of_nil in Hcb.
  - simpl. rewrite Hf, (bool_decide_eq_true_2 _ Htag), Hs. simpl.
    repeat split; try done.
    intros cb later Hcb. apply list_elem_of_singleton in Hcb as ->.
    simpl. eauto.
  - simpl. rewrite Hf, (bool_decide_eq_true_2 _ Htag), Hs. simpl.
    repeat split; try done.
    intros cb later Hcb. apply list_elem_of_singleton in Hcb as ->.
    simpl. unfold bind. simpl. eauto.
  - simpl. rewrite Hf, (bool_decide_eq_true_2 _ Htag), Hs. simpl.
    repeat split; try done.
    intros cb later Hcb. apply list_elem_of_singleton in Hcb as ->.
    simpl. unfold bind. simpl. eauto.
Qed.

(** X3.  A call queues at most one timer: the closure for its resolved
    target when that target is focusable and not an iframe (the one that
    also leaves suspension if events were suspended at call time), nothing
    otherwise.  Its [setTimeout] calls are exactly these, and a queued
    closure never faults, in whatever world it later runs. *)
Theorem setFocus_queues_one_closure fuel targetNode fd w rt w' :
  setFocus fuel targetNode fd w = Done rt w' →
  let queued := queuedBy (eventsSuspended w) (nodes w') rt in
  timers w' = timers w ++ queued ∧
  List.filter isSetTimeout (newCalls w w') = SetTimeout <$> queued ∧
  ∀ cb later, cb ∈ queued → ∃ later', runCallback cb later = Done tt later'.
Proof. apply setFocus_queues_one_closure_aux. Qed.

(** X4.  [enterSuspendEvents] is called at most once, only when events were
    suspended at call time, and never without its exit: whenever the call
    makes it, the timer the call queues is the closure of lines 83-86, which
    calls [exitSuspendEvents] when it runs. *)
Theorem setFocus_enter_has_deferred_exit fuel targetNode fd w rt w' :
  setFocus fuel targetNode fd w = Done rt w' →
  List.filter isEnter (newCalls w w') = [] ∨
  (List.filter isEnter (newCalls w w') = [EnterSuspendEvents] ∧
   eventsSuspended w = true ∧
   timers w' = timers w ++ [FocusThenExit rt] ∧
   ∀ later, ∃ later',
     runCallback (FocusThenExit rt) later = Done tt later' ∧
     List.filter isEnter (newCalls later later') = [] ∧
     ExitSuspendEvents ∈ newCalls later later').
Proof.
  intros E.
  destruct (setFocus_run _ _ _ _ _ _ E)
    as (w1 & w2 & w3 & pre & mid & post & _ & _ & _ & Hstep & _ & _ & Hnew
        & Hpre1 & _ & Hpost1 & _ & Hn2 & He2 & Ht2 & _ & _ & Ht').
  rewrite Hnew, !List.filter_app.
  rewrite (filter_nil_weaken _ _ pre enter_is_focus_call Hpre1).
  rewrite (filter_nil_weaken _ _ post enter_is_focus_call Hpost1).
  rewrite app_nil_r. simpl.
  inversion Hstep as [Hf _|a Hf _ _|n -> Hf Htag|n -> Hf Htag Hs
                      |n -> Hf Htag Hs Hx|n -> Hf Htag Hs Hx]; subst;
    simpl; auto.
  right. split; [done|]. split; [congruence|]. split.
  { rewrite Ht'. simpl. by rewrite Ht2. }
  intros later. destruct (runCallback_FocusThenExit n later) as (Hr & Hc & _).
  eexists. split; [exact Hr|].
  rewrite (newCalls_app _ _ _ Hc). simpl. split; [done|].
  apply elem_of_cons. right. apply elem_of_cons. auto.
Qed.

Lemma lookup_setAttributeIn_ne d n name value m :
  m ≠ n → setAttributeIn d n name value !! m = d !! m.
Proof.
  intros Hne. unfold setAttributeIn.
  destruct (d !! n) as [nd|]; [|done]. by rewrite lookup_insert_ne.
Qed.

Lemma getAttributeOf_setAttributeIn_other d n name value m name' :
  lowerCase name' ≠ lowerCase name →
  getAttributeOf (setAttributeIn d n name value) m name' = getAttributeOf d m name'.
Proof.
  intros Hne. unfold getAttributeOf, setAttributeIn.
  destruct (d !! n) as [nd|] eqn:E; [|done].
  destruct (decide (n = m)) as [->|Hnm].
  - rewrite lookup_insert_eq, E. simpl. by rewrite lookup_insert_ne.
  - by rewrite lookup_insert_ne.
Qed.

Lemma is_Some_setAttributeIn d n name value m :
  is_Some (setAttributeIn d n name value !! m) ↔ is_Some (d !! m).
Proof.
  unfold setAttributeIn. destruct (d !! n) as [nd|] eqn:E; [|done].
  destruct (decide (n = m)) as [->|Hnm].
  - rewrite lookup_insert_eq, E. split; eauto.
  - by rewrite lookup_insert_ne.
Qed.

(** X5.  The only thing a call may change in the document is the
    [tabindex] attribute of [targetNode].  Every node keeps its parent, its
    children, its tag and its constructor; no node appears or disappears;
    every node other than [targetNode] is left as it is; and every attribute
    other than [tabindex] reads as before. *)
Theorem setFocus_document_frame fuel targetNode fd w rt w' :
  setFocus fuel targetNode fd w = Done rt w' →
  (∀ m, parentNodeOf (nodes w') m = parentNodeOf (nodes w) m ∧
        childNodesOf (nodes w') m = childNodesOf (nodes w) m ∧
        tagNameOf (nodes w') m = tagNameOf (nodes w) m ∧
        constructorOf (nodes w') m = constructorOf (nodes w) m ∧
        (is_Some (nodes w' !! m) ↔ is_Some (nodes w !! m))) ∧
  (∀ m, targetNode ≠ Some m → nodes w' !! m = nodes w !! m) ∧
  (∀ m name, lowerCase name ≠ "tabindex" →
             getAttributeOf (nodes w') m name = getAttributeOf (nodes w) m name).
Proof.
  intros E. rewrite (setFocus_nodes _ _ _ _ _ _ E).
  unfold nodesWhenResolved. destruct targetNode as [n|]; [|done].
  destruct (_ && _); [|done].
  split; [|split].
  - intros m.
    rewrite parentNodeOf_setAttributeIn, childNodesOf_setAttributeIn,
      tagNameOf_setAttributeIn, constructorOf_setAttributeIn.
    repeat split; try done; apply is_Some_setAttributeIn.
  - intros m Hm. apply lookup_setAttributeIn_ne. congruence.
  - intros m name Hname. by apply getAttributeOf_setAttributeIn_other.
Qed.

Lemma searchUp_result fuel : ∀ node w rt w',
  searchUp fuel node w = Done rt w' →
  rt = None ∨ isFocusableIn (nodes w) rt = true.
Proof.
  induction fuel as [|fuel IH]; intros node w rt w' Hs; simpl in Hs; [done|].
  unfold bind, isFocusable, ret in Hs.
  destruct node as [n|]; simpl in Hs; [|inversion Hs; auto].
  destruct (focusable (nodes w) n) eqn:Ef; simpl in Hs.
  - inversion Hs; subst. right. done.
  - by apply IH in Hs.
Qed.

Lemma searchDown_focusable d fuel : ∀ stack x,
  searchDown fuel d stack = Some (Some x) → focusable d x = true.
Proof.
  induction fuel as [|fuel IH]; intros stack x; simpl; [done|].
  destruct stack as [|n rest]; [done|].
  destruct (focusable d n) eqn:Ef; [by intros [= <-]|]. apply IH.
Qed.

(** X6.  What a call ends with is null, or a focusable node, or, only when
    [focusDescendants] is set, the unfocusable [targetNode] it was given:
    the function never retargets to a node that cannot take focus. *)
Theorem setFocus_target_null_focusable_or_unchanged fuel targetNode fd w rt w' :
  setFocus fuel targetNode fd w = Done rt w' →
  rt = None ∨
  isFocusableIn (nodes w') rt = true ∨
  (fd = true ∧ rt = targetNode ∧ isFocusableIn (nodes w') targetNode = false).
Proof.
  intros E.
  destruct (setFocus_run _ _ _ _ _ _ E)
    as (w1 & w2 & w3 & pre & mid & post & _ & _ & E2 & _ & _ & _ & _
        & _ & _ & _ & _ & Hn2 & _).
  rewrite <- Hn2.
  destruct (isFocusableIn (nodes w2) targetNode) eqn:Hf.
  - rewrite resolveTarget_up in E2 by auto.
    apply searchUp_result in E2 as [->|?]; auto.
  - destruct fd.
    + rewrite resolveTarget_down in E2 by done.
      destruct (findFocusableDescendant fuel (nodes w2) targetNode)
        as [[x|]|] eqn:Ed; [| |done].
      * injection E2 as <-. right. left.
        destruct targetNode as [n|]; [|done]. simpl in Ed.
        by apply searchDown_focusable in Ed.
      * injection E2 as <-. auto.
    + rewrite resolveTarget_up in E2 by auto.
      apply searchUp_result in E2 as [->|?]; auto.
Qed.








(** X12.  [setFocus(null)] completes in every world, without looking at the
    tree: it resolves null, leaves the document, the timers and the
    suspension calls alone, and blurs the focused element, whatever it is,
    as its first call. *)
Theorem setFocus_null_target fuel fd w :
  ∃ w',
    setFocus (S fuel) None fd w = Done None w' ∧
    nodes w' = nodes w ∧
    timers w' = timers w ∧
    List.filter isFocusCall (newCalls w w') = [] ∧
    match activeElement w with
    | Some a => ∃ rest, newCalls w w' = Blur a :: rest
    | None => List.filter isBlur (newCalls w w') = []
    end.
Proof.
  assert (Hc : Chain (nodes w) None []) by constructor.
  assert (Hfuel : length (@nil Node) < S fuel) by (simpl; lia).
  pose proof (blurUnlessDescendant_chain (S fuel) None w [] Hc Hfuel) as E1.
  set (w1 := match activeElement w with
             | Some a => if bool_decide (a ∈ @nil Node) then w else blurWorld a w
             | None => w
             end) in E1.
  assert (E2 : resolveTarget (S fuel) None fd (videoFocusableWorld None w1)
               = Done None (videoFocusableWorld None w1)) by (by destruct fd).
  destruct (setFocus_done _ _ _ _ _ _ E1 E2) as [w' E].
  exists w'. split; [done|].
  pose proof (setFocus_nodes _ _ _ _ _ _ E) as Hn. split; [done|].
  destruct (setFocus_queues_one_closure_aux _ _ _ _ _ _ E) as (Hq & _).
  simpl in Hq. rewrite app_nil_r in Hq. split; [done|].
  apply setFocus_inv in E as (w1' & w3 & E1' & _ & E3 & E4).
  assert (w1' = w1) as -> by congruence.
  destruct (unfocusable_tail _ _ _ _ _ _ _ E1 E3 E4 eq_refl) as (Hfc & _ & Hblur).
  split; [done|].
  pose proof (calls_after_blur_step _ _ _ _ _ _ _ E1 E3 E4) as Hcalls.
  subst w1. destruct (activeElement w) as [a|] eqn:Ha.
  - simpl in Hcalls. rewrite calls_blurWorld, <- app_assoc in Hcalls.
    rewrite (newCalls_app _ _ _ Hcalls). eauto.
  - by rewrite Ha in Hblur.
Qed.

(** X8.  [shouldEnterSuspendEvents_] (lines 117-125) has no null check: on
    null it faults at [targetNode.constructor].  On a node it only reads: it
    answers false exactly for a video element and for a node that has the
    attribute methods and whose attribute [type] is ["time"], and true for
    every other node, a text or document node included. *)
Theorem shouldEnterSuspendEvents_rule :
  (∀ w, shouldEnterSuspendEvents_ None w = Fault) ∧
  ∀ n w, ∃ b,
    shouldEnterSuspendEvents_ (Some n) w = Done b w ∧
    (b = false ↔
       constructorOf (nodes w) n = Some HTMLVideoElement ∨
       (hasAttributeMethod (nodes w) n = true ∧
        getAttributeOf (nodes w) n "type" = Some "time")).
Proof.
  split; [done|]. intros n w.
  exists (negb (excludedFromSuspension (nodes w) n)).
  split; [apply shouldEnterSuspendEvents__spec|].
  unfold excludedFromSuspension.
  destruct (decide (constructorOf (nodes w) n = Some HTMLVideoElement)) as [Hv|Hv].
  - rewrite (bool_decide_eq_true_2 _ Hv). simpl. split; auto.
  - rewrite (bool_decide_eq_false_2 _ Hv). simpl.
    destruct (hasAttributeMethod (nodes w) n); simpl.
    + destruct (decide (getAttributeOf (nodes w) n "type" = Some "time")) as [Ht|Ht].
      * rewrite (bool_decide_eq_true_2 _ Ht). simpl. split; auto.
      * rewrite (bool_decide_eq_false_2 _ Ht). simpl.
        split; [done|]. intros [?|[_ ?]]; done.
    + split; [done|]. intros [?|[? _]]; done.
Qed.

(** X9.  No range is selected when the call starts.  Then line 102 has
    nothing to restore: if the target the call ends with is a text input the
    only selection call is [select()] on it, and otherwise the call makes no
    selection call at all and leaves the selected input text as it was. *)
Theorem setFocus_without_range fuel targetNode fd w rt w' :
  selection w = [] →
  setFocus fuel targetNode fd w = Done rt w' →
  if isInputTypeTextIn (nodes w') rt then
    ∃ n, rt = Some n ∧
         List.filter isSelectionCall (newCalls w w') = [Select n] ∧
         selectedText w' = Some n
  else
    List.filter isSelectionCall (newCalls w w') = [] ∧
    selectedText w' = selectedText w.
Proof.
  intros Hsel E.
  apply setFocus_inv in E as (w1 & w3 & E1 & E2 & E3 & E4).
  destruct (prelude_frame _ _ _ _ E1)
    as (pre & Hpre & _ & Hpre2 & _ & _ & _ & _ & Hs2 & _).
  destruct (focusOrBlur_frame _ _ _ E3) as (mid & Hmid & Hmid1 & _ & Hs3).
  assert (Hn : nodes w' = nodes w3).
  { by apply restoreSelection_frame in E4 as (post & _ & _ & _ & Hn4 & _). }
  rewrite Hsel in E4. simpl in E4. rewrite Hn.
  destruct (isInputTypeTextIn (nodes w3) rt) eqn:Ht.
  - destruct rt as [n|]; [|done].
    rewrite restoreSelection_text in E4 by done. injection E4 as <-.
    exists n. split; [done|]. split; [|done].
    rewrite (newCalls_app w _ (pre ++ mid ++ [Select n])).
    + by rewrite !List.filter_app, Hpre2, Hmid1.
    + simpl. rewrite Hmid, Hpre. by rewrite <- !app_assoc.
  - rewrite restoreSelection_other in E4 by done. injection E4 as <-.
    split; [|congruence].
    rewrite (newCalls_app w _ (pre ++ mid)).
    + by rewrite List.filter_app, Hpre2, Hmid1.
    + rewrite Hmid, Hpre. by rewrite <- !app_assoc.
Qed.

Lemma newCalls_refl_nil w : newCalls w w = [].
Proof. apply newCalls_app. by rewrite app_nil_r. Qed.

(** The blurs of a completed call: those of lines 44-47, then those of
    lines 94-97. *)
Lemma setFocus_blurs fuel targetNode fd w rt w' :
  setFocus fuel targetNode fd w = Done rt w' →
  ∃ w1 w3 mid,
    blurUnlessDescendant fuel targetNode w = Done tt w1 ∧
    FocusStep rt (videoFocusableWorld targetNode w1) w3 mid ∧
    List.filter isBlur (newCalls w w')
      = List.filter isBlur (newCalls w w1) ++ List.filter isBlur mid ∧
    nodes (videoFocusableWorld targetNode w1) = nodes w' ∧
    activeElement (videoFocusableWorld targetNode w1) = activeElement w1.
Proof.
  intros E.
  pose proof (setFocus_nodes _ _ _ _ _ _ E) as Hn.
  apply setFocus_inv in E as (w1 & w3 & E1 & E2 & E3 & E4).
  destruct (prelude_frame _ _ _ _ E1)
    as (pre & _ & _ & _ & _ & Hn2 & _ & _ & _ & Ha2 & _).
  destruct (blurUnlessDescendant_calls _ _ _ _ E1) as (blurs & Hb & _ & _).
  assert (∃ v, calls (videoFocusableWorld targetNode w1) = calls w1 ++ v ∧
               List.filter isBlur v = []) as (v & Hv & Hv1).
  { unfold videoFocusableWorld. destruct targetNode as [n|];
      [|exists []; by rewrite app_nil_r].
    destruct (_ && _); [by eexists|exists []; by rewrite app_nil_r]. }
  destruct (focusOrBlur_step _ _ _ E3) as (mid & Hstep & Hmid).
  apply restoreSelection_frame in E4 as (post & Hpost & _ & Hpost2 & _).
  exists w1, w3, mid. split; [done|]. split; [done|]. split; [|split; congruence].
  rewrite (newCalls_app w w' (blurs ++ v ++ mid ++ post)).
  - rewrite (newCalls_app _ _ _ Hb), !List.filter_app, Hv1, Hpost2.
    by rewrite app_nil_r.
  - rewrite Hpost, Hmid, Hv, Hb. by rewrite <- !app_assoc.
Qed.

(** X10.  A call blurs at most twice.  With no focused element at call time
    it never blurs.  When it ends with a focusable target, the only blur it
    can have made is the one of lines 44-47, of the element focused at call
    time: the branch of lines 94-97 is not taken. *)
Theorem setFocus_blur_bound fuel targetNode fd w rt w' :
  setFocus fuel targetNode fd w = Done rt w' →
  length (List.filter isBlur (newCalls w w')) ≤ 2 ∧
  (activeElement w = None → List.filter isBlur (newCalls w w') = []) ∧
  (isFocusableIn (nodes w') rt = true →
   List.filter isBlur (newCalls w w') = [] ∨
   ∃ a, activeElement w = Some a ∧
        List.filter isBlur (newCalls w w') = [Blur a]).
Proof.
  intros E.
  destruct (setFocus_blurs _ _ _ _ _ _ E)
    as (w1 & w3 & mid & E1 & Hstep & -> & Hn2 & Ha2).
  assert (Hmid : List.filter isBlur mid = [] ∨
                 ∃ a, List.filter isBlur mid = [Blur a] ∧
                      activeElement w1 = Some a ∧
                      isFocusableIn (nodes w') rt = false).
  { rewrite <- Hn2, <- Ha2. inversion Hstep; subst; simpl; eauto. }
  apply blurUnlessDescendant_inv in E1 as [->|(a & Ha & ->)].
  - rewrite newCalls_refl_nil. simpl.
    destruct Hmid as [->|(b & -> & Hb & Hnf)]; simpl.
    + split; [lia|]. split; auto.
    + split; [lia|]. split; [congruence|]. congruence.
  - rewrite (newCalls_app _ _ [Blur a]) by apply calls_blurWorld. simpl.
    destruct Hmid as [->|(b & -> & Hb & Hnf)]; simpl.
    + split; [lia|]. split; [congruence|]. eauto.
    + split; [lia|]. split; [congruence|]. congruence.
Qed.

End Further.

(** ** The claims on the sample page *)

#[local] Existing Instance samplePlatform.

(** Hypotheses on the sample page are settled by evaluation. *)
Ltac sample_chain := apply (chainOf_sound _ 10); vm_compute; reflexivity.
Ltac sample_preorder := apply (preorderOf_sound _ 10); vm_compute; reflexivity.
Ltac not_listed := apply (bool_decide_unpack _); vm_compute; exact I.

(** From the [EM] (node 13) the call resolves the link (node 10), a plain
    focusable element, while events are suspended. *)
Lemma setFocus_suspended_enters_then_exits_witness :
  ∃ w',
    setFocus 10 (Some 13) false (sampleWorld (Some 5) true [sampleRange])
      = Done (Some 10) w' ∧
    timers w' = [FocusThenExit (Some 10)].
Proof.
  eexists. split; [vm_compute; reflexivity|].
  refine (proj1 (proj2 (setFocus_suspended_enters_then_exits
    10 (Some 13) false (sampleWorld (Some 5) true [sampleRange]) 10 _
    _ _ _ _ _ _))).
  - reflexivity.
  - vm_compute; reflexivity.
  - vm_compute; reflexivity.
  - vm_compute; discriminate.
  - vm_compute; discriminate.
  - vm_compute; discriminate.
Defined.

(** [setFocus(video)] while events are suspended, the video (node 7) being
    focusable: [enterSuspendEvents] is not called, yet the closure that the
    next turn of the event loop runs calls [exitSuspendEvents] and clears the
    flag. *)
Lemma setFocus_excluded_target_still_exits_witness :
  let w := sampleWorld (Some 5) true [] in
  ∃ w',
    setFocus 10 (Some 7) false w = Done (Some 7) w' ∧
    constructorOf (nodes w') 7 = Some HTMLVideoElement ∧
    newCalls w w' = [Blur 5; SetTimeout (FocusThenExit (Some 7))] ∧
    (∃ w'', runNextTimer w' = Done tt w'' ∧
            newCalls w' w'' = [Focus 7; ExitSuspendEvents] ∧
            eventsSuspended w'' = false) ∧
    List.filter isFocusCall (newCalls w w') = [SetTimeout (FocusThenExit (Some 7))] ∧
    eventsSuspended w' = true ∧
    timers w' = timers w ++ [FocusThenExit (Some 7)] ∧
    ∀ later,
      runCallback (FocusThenExit (Some 7)) later
        = Done tt (exitWorld (focusWorld 7 later)) ∧
      calls (exitWorld (focusWorld 7 later))
        = calls later ++ [Focus 7; ExitSuspendEvents] ∧
      eventsSuspended (exitWorld (focusWorld 7 later)) = false.
Proof.
  intros w. eexists.
  split; [vm_compute; reflexivity|].
  split; [vm_compute; reflexivity|].
  split; [vm_compute; reflexivity|].
  split; [eexists; repeat split; vm_compute; reflexivity|].
  apply (setFocus_excluded_target_still_exits 10 (Some 7) false w 7).
  - reflexivity.
  - vm_compute; reflexivity.
  - vm_compute; reflexivity.
  - vm_compute; discriminate.
  - vm_compute; reflexivity.
Defined.

(** The link (node 10) holds focus.  The button (node 5) is not below it:
    the link is blurred first.  The [EM] (node 13) is below it: lines 44-47
    leave the world as it is. *)
Lemma setFocus_blurs_unless_descendant_witness :
  let w := sampleWorld (Some 10) false [] in
  (∃ w',
     setFocus 10 (Some 5) false w = Done (Some 5) w' ∧
     ∃ rest, newCalls w w' = Blur 10 :: rest) ∧
  (∃ w',
     setFocus 10 (Some 13) false w = Done (Some 10) w' ∧
     blurUnlessDescendant 10 (Some 13) w = Done tt w).
Proof.
  intros w. split.
  - eexists. split; [vm_compute; reflexivity|].
    refine (proj1 (proj2 (proj2 (setFocus_blurs_unless_descendant
      10 (Some 5) false w 10 [5; 3; 2; 1; 0] (Some 5) _ _ _ _ _))) _).
    + reflexivity.
    + sample_chain.
    + simpl; lia.
    + vm_compute; reflexivity.
    + not_listed.
  - eexists. split; [vm_compute; reflexivity|].
    refine (proj1 (setFocus_blurs_unless_descendant
      10 (Some 13) false w 10 [13; 11; 10; 2; 1; 0] (Some 10) _ _ _ _ _)).
    + reflexivity.
    + sample_chain.
    + simpl; lia.
    + vm_compute; reflexivity.
Defined.

Lemma setFocus_first_focusable_descendant_witness :
  (∃ w', setFocus 10 (Some 3) true (sampleWorld (Some 2) false []) = Done (Some 5) w') ∧
  5 ≠ 3 ∧ 5 ∉ [2; 1; 0].
Proof.
  apply (setFocus_first_focusable_descendant
    10 (sampleWorld (Some 2) false []) 3 [2; 1; 0] [4; 5] [4] 5 []).
  - apply parentsMatchChildrenb_sound. vm_compute; reflexivity.
  - sample_chain.
  - sample_preorder.
  - simpl; lia.
  - simpl; lia.
  - vm_compute; reflexivity.
  - reflexivity.
  - repeat constructor.
  - vm_compute; reflexivity.
Defined.

(** Node 11 has the focusable ancestor 10, which is not looked at. *)
Lemma setFocus_no_focusable_descendant_witness :
  parentNodeOf sampleNodes 11 = Some 10 ∧
  focusable sampleNodes 10 = true ∧
  ∃ w1 w',
    blurUnlessDescendant 10 (Some 11) (sampleWorld (Some 10) false []) = Done tt w1 ∧
    setFocus 10 (Some 11) true (sampleWorld (Some 10) false []) = Done (Some 11) w' ∧
    List.filter isFocusCall (newCalls (sampleWorld (Some 10) false []) w') = [] ∧
    timers w' = timers (sampleWorld (Some 10) false []) ∧
    List.filter isBlur (newCalls w1 w') =
      match activeElement w1 with
      | Some a =>
          if bool_decide (tagNameOf sampleNodes a ≠ Some "BODY") then [Blur a] else []
      | None => []
      end.
Proof.
  split; [vm_compute; reflexivity|]. split; [vm_compute; reflexivity|].
  apply (setFocus_no_focusable_descendant
    10 (sampleWorld (Some 10) false []) 11 [11; 10; 2; 1; 0] [13]).
  - sample_chain.
  - sample_preorder.
  - simpl; lia.
  - simpl; lia.
  - vm_compute; reflexivity.
  - repeat constructor.
Defined.

Lemma setFocus_iframe_not_focused_witness :
  ∃ w',
    setFocus 10 (Some 9) false (sampleWorld (Some 5) true []) = Done (Some 9) w' ∧
    List.filter isFocusCall (newCalls (sampleWorld (Some 5) true []) w') = [] ∧
    timers w' = [] ∧
    eventsSuspended w' = true.
Proof.
  eexists. split; [vm_compute; reflexivity|].
  apply (setFocus_iframe_not_focused
    10 (Some 9) false (sampleWorld (Some 5) true []) 9).
  - vm_compute; reflexivity.
  - vm_compute; reflexivity.
  - vm_compute; reflexivity.
Defined.

(** A call with no target while the button (node 5) holds focus. *)
Lemma setFocus_nothing_focusable_witness :
  ∃ w',
    setFocus 10 None false (sampleWorld (Some 5) false []) = Done None w' ∧
    Blur 5 ∈ newCalls (sampleWorld (Some 5) false []) w'.
Proof.
  eexists. split; [vm_compute; reflexivity|].
  destruct setFocus_nothing_focusable as (_ & _ & Hblur).
  refine (proj1 (proj2 (proj2 (Hblur
    10 None false (sampleWorld (Some 5) false []) None _ _ _))) 5 _ _).
  - vm_compute; reflexivity.
  - reflexivity.
  - reflexivity.
  - vm_compute; discriminate.
Defined.

(** C7 as stated fails: with no target and the body (node 2) holding focus,
    nothing focusable is resolved, the focused element has tag [BODY], and
    yet it is blurred, by line 46. *)
Lemma setFocus_null_target_blurs_body :
  let w := sampleWorld (Some 2) false [] in
  ∃ w',
    setFocus 10 None false w = Done None w' ∧
    isFocusableIn (nodes w') None = false ∧
    activeElement w = Some 2 ∧
    tagNameOf (nodes w) 2 = Some "BODY" ∧
    newCalls w w' = [Blur 2] ∧
    ¬ (List.filter isBlur (newCalls w w') = []).
Proof.
  intros w. eexists.
  split; [vm_compute; reflexivity|].
  do 4 (split; [vm_compute; reflexivity|]).
  vm_compute. discriminate.
Qed.

(** The button (node 5) is no text input, the input (node 12) is one. *)
Lemma setFocus_restores_selection_witness :
  let w := sampleWorld (Some 10) false [sampleRange] in
  (∃ w',
     setFocus 10 (Some 5) false w = Done (Some 5) w' ∧
     isInputTypeTextIn (nodes w') (Some 5) = false ∧
     selection w' = [sampleRange] ∧
     if isInputTypeTextIn (nodes w') (Some 5) then
       ∃ n, Some 5 = Some n ∧
            List.filter isSelectionCall (newCalls w w') = [Select n] ∧
            selectedText w' = Some n
     else
       selection w' = [sampleRange] ∧
       ∃ before,
         newCalls w w' = before ++ [RemoveAllRanges; AddRange sampleRange] ∧
         List.filter isSelectionCall before = []) ∧
  (∃ w',
     setFocus 10 (Some 12) false w = Done (Some 12) w' ∧
     isInputTypeTextIn (nodes w') (Some 12) = true ∧
     selectedText w' = Some 12 ∧
     if isInputTypeTextIn (nodes w') (Some 12) then
       ∃ n, Some 12 = Some n ∧
            List.filter isSelectionCall (newCalls w w') = [Select n] ∧
            selectedText w' = Some n
     else
       selection w' = [sampleRange] ∧
       ∃ before,
         newCalls w w' = before ++ [RemoveAllRanges; AddRange sampleRange] ∧
         List.filter isSelectionCall before = []).
Proof.
  intros w. split.
  - eexists. split; [vm_compute; reflexivity|].
    split; [vm_compute; reflexivity|]. split; [vm_compute; reflexivity|].
    apply (setFocus_restores_selection 10 (Some 5) false w sampleRange []).
    + reflexivity.
    + vm_compute; reflexivity.
  - eexists. split; [vm_compute; reflexivity|].
    split; [vm_compute; reflexivity|]. split; [vm_compute; reflexivity|].
    apply (setFocus_restores_selection 10 (Some 12) false w sampleRange []).
    + reflexivity.
    + vm_compute; reflexivity.
Defined.

(** From the [EM] (node 13) the walk passes the [SPAN] and stops at the
    link (node 10). *)
Lemma setFocus_walks_up_parent_chain_witness :
  ∃ rt w',
    setFocus 10 (Some 13) false (sampleWorld None false []) = Done rt w' ∧
    rt = Some 10.
Proof.
  destruct (setFocus_walks_up_parent_chain
    10 (Some 13) false (sampleWorld None false []) [13; 11; 10; 2; 1; 0])
    as (rt & w' & E & _ & Hrt & _).
  - sample_chain.
  - simpl; lia.
  - left; reflexivity.
  - exists rt, w'. split; [exact E|]. rewrite Hrt. vm_compute; reflexivity.
Defined.

(** The video without [tabindex] (node 6) gets one; the video that has one
    (node 7) is left as it is. *)
Lemma setFocus_video_tabindex_witness :
  let w := sampleWorld (Some 5) false [] in
  (∃ w',
     setFocus 10 (Some 6) false w = Done (Some 6) w' ∧
     getAttributeOf (nodes w') 6 "tabIndex" = Some "0" ∧
     newCalls w w'
       = [Blur 5; SetAttribute 6 "tabIndex" "0"; SetTimeout (FocusOnly (Some 6))]) ∧
  (∃ w',
     setFocus 10 (Some 7) false w = Done (Some 7) w' ∧
     nodes w' = nodes w).
Proof.
  intros w. split.
  - eexists. split; [vm_compute; reflexivity|].
    split; [|vm_compute; reflexivity].
    refine (proj1 (proj2 (setFocus_video_tabindex
      10 6 false w (Some 6) _ _ _))).
    + vm_compute; reflexivity.
    + vm_compute; reflexivity.
  - eexists. split; [vm_compute; reflexivity|].
    refine (proj1 (setFocus_video_tabindex
      10 7 false w (Some 7) _ _ _)).
    + vm_compute; reflexivity.
    + vm_compute; reflexivity.
Defined.

(** C4 as stated fails on a video element: node 6 is not focusable when the
    call starts and the link below it (node 14) is its first focusable
    descendant, but lines 50-54 give the video a [tabIndex], line 56 then
    finds it focusable, and the call resolves the video itself. *)
Lemma setFocus_video_not_retargeted :
  let w := sampleWorld (Some 2) false [] in
  constructorOf (nodes w) 6 = Some HTMLVideoElement ∧
  focusable (nodes w) 6 = false ∧
  preorderOf 10 (nodes w) (childNodesOf (nodes w) 6) = Some [14] ∧
  focusable (nodes w) 14 = true ∧
  ∃ w',
    setFocus 10 (Some 6) true w = Done (Some 6) w' ∧
    Some 6 ≠ Some 14 ∧
    newCalls w w' = [SetAttribute 6 "tabIndex" "0"; SetTimeout (FocusOnly (Some 6))].
Proof.
  intros w.
  do 4 (split; [vm_compute; reflexivity|]).
  eexists. split; [vm_compute; reflexivity|].
  split; [discriminate|]. vm_compute; reflexivity.
Qed.

(** C5 as stated fails on a video element: node 15 is not focusable when the
    call starts and has no descendant, but lines 50-54 make it focusable, so
    the call ends with a focusable target and defers its focus instead of
    taking the branch of lines 94-97. *)
Lemma setFocus_video_without_descendants_focused :
  let w := sampleWorld (Some 2) false [] in
  constructorOf (nodes w) 15 = Some HTMLVideoElement ∧
  focusable (nodes w) 15 = false ∧
  preorderOf 10 (nodes w) (childNodesOf (nodes w) 15) = Some [] ∧
  ∃ w',
    setFocus 10 (Some 15) true w = Done (Some 15) w' ∧
    focusable (nodes w') 15 = true ∧
    timers w' = [FocusOnly (Some 15)] ∧
    newCalls w w' =
      [SetAttribute 15 "tabIndex" "0"; SetTimeout (FocusOnly (Some 15))].
Proof.
  intros w.
  do 3 (split; [vm_compute; reflexivity|]).
  eexists. split; [vm_compute; reflexivity|].
  repeat split; vm_compute; reflexivity.
Qed.

(** ** Further properties on the sample page *)

(** The button (node 5), events not suspended. *)
Lemma setFocus_unsuspended_defers_focus_only_witness :
  let w := sampleWorld (Some 10) false [] in
  ∃ w',
    setFocus 10 (Some 5) false w = Done (Some 5) w' ∧
    List.filter isFocusCall (newCalls w w') = [SetTimeout (FocusOnly (Some 5))].
Proof.
  intros w. eexists. split; [vm_compute; reflexivity|].
  refine (proj1 (setFocus_unsuspended_defers_focus_only
    10 (Some 5) false w 5 _ _ _ _ _)).
  - reflexivity.
  - vm_compute; reflexivity.
  - vm_compute; reflexivity.
  - vm_compute; discriminate.
Defined.

Lemma setFocus_never_focuses_synchronously_witness :
  let w := sampleWorld (Some 5) true [sampleRange] in
  ∃ w',
    setFocus 10 (Some 13) false w = Done (Some 10) w' ∧
    List.filter isDeferredCall (newCalls w w') = [] ∧
    eventsSuspended w' = eventsSuspended w.
Proof.
  intros w. eexists. split; [vm_compute; reflexivity|].
  apply (setFocus_never_focuses_synchronously 10 (Some 13) false w (Some 10)).
  vm_compute; reflexivity.
Defined.

Lemma setFocus_queues_one_closure_witness :
  let w := sampleWorld (Some 5) true [sampleRange] in
  ∃ w',
    setFocus 10 (Some 13) false w = Done (Some 10) w' ∧
    queuedBy (eventsSuspended w) (nodes w') (Some 10) = [FocusThenExit (Some 10)] ∧
    timers w' = timers w ++ queuedBy (eventsSuspended w) (nodes w') (Some 10).
Proof.
  intros w. eexists. split; [vm_compute; reflexivity|].
  split; [vm_compute; reflexivity|].
  refine (proj1 (setFocus_queues_one_closure
    10 (Some 13) false w (Some 10) _ _)).
  vm_compute; reflexivity.
Defined.

(** The link (node 10) is no excluded target: the call enters suspension,
    and the closure it queues leaves it. *)
Lemma setFocus_enter_has_deferred_exit_witness :
  let w := sampleWorld (Some 5) true [sampleRange] in
  ∃ w',
    setFocus 10 (Some 13) false w = Done (Some 10) w' ∧
    List.filter isEnter (newCalls w w') = [EnterSuspendEvents] ∧
    (List.filter isEnter (newCalls w w') = [] ∨
     (List.filter isEnter (newCalls w w') = [EnterSuspendEvents] ∧
      eventsSuspended w = true ∧
      timers w' = timers w ++ [FocusThenExit (Some 10)] ∧
      ∀ later, ∃ later',
        runCallback (FocusThenExit (Some 10)) later = Done tt later' ∧
        List.filter isEnter (newCalls later later') = [] ∧
        ExitSuspendEvents ∈ newCalls later later')).
Proof.
  intros w. eexists. split; [vm_compute; reflexivity|].
  split; [vm_compute; reflexivity|].
  apply (setFocus_enter_has_deferred_exit 10 (Some 13) false w (Some 10)).
  vm_compute; reflexivity.
Defined.

(** Focusing the video without [tabindex] (node 6) leaves the button (node
    5) as it is and keeps the video under the body. *)
Lemma setFocus_document_frame_witness :
  let w := sampleWorld (Some 5) false [] in
  ∃ w',
    setFocus 10 (Some 6) false w = Done (Some 6) w' ∧
    nodes w' !! 5 = nodes w !! 5 ∧
    parentNodeOf (nodes w') 6 = parentNodeOf (nodes w) 6.
Proof.
  intros w. eexists. split; [vm_compute; reflexivity|].
  split.
  - refine (proj1 (proj2 (setFocus_document_frame
      10 (Some 6) false w (Some 6) _ _)) 5 _).
    + vm_compute; reflexivity.
    + discriminate.
  - refine (proj1 (proj1 (setFocus_document_frame
      10 (Some 6) false w (Some 6) _ _) 6)).
    vm_compute; reflexivity.
Defined.

(** On the [SPAN] (node 11) with [focusDescendants] set, the third case. *)
Lemma setFocus_target_null_focusable_or_unchanged_witness :
  let w := sampleWorld (Some 10) false [] in
  ∃ w',
    setFocus 10 (Some 11) true w = Done (Some 11) w' ∧
    isFocusableIn (nodes w') (Some 11) = false ∧
    (Some 11 = None ∨
     isFocusableIn (nodes w') (Some 11) = true ∨
     (true = true ∧ Some 11 = Some 11 ∧
      isFocusableIn (nodes w') (Some 11) = false)).
Proof.
  intros w. eexists. split; [vm_compute; reflexivity|].
  split; [vm_compute; reflexivity|].
  apply (setFocus_target_null_focusable_or_unchanged 10 (Some 11) true w (Some 11)).
  vm_compute; reflexivity.
Defined.



(** No range selected, and the button (node 5) is no text input. *)
Lemma setFocus_without_range_witness :
  let w := sampleWorld (Some 10) false [] in
  ∃ w',
    setFocus 10 (Some 5) false w = Done (Some 5) w' ∧
    isInputTypeTextIn (nodes w') (Some 5) = false ∧
    if isInputTypeTextIn (nodes w') (Some 5) then
      ∃ n, Some 5 = Some n ∧
           List.filter isSelectionCall (newCalls w w') = [Select n] ∧
           selectedText w' = Some n
    else
      List.filter isSelectionCall (newCalls w w') = [] ∧
      selectedText w' = selectedText w.
Proof.
  intros w. eexists. split; [vm_compute; reflexivity|].
  split; [vm_compute; reflexivity|].
  apply (setFocus_without_range 10 (Some 5) false w (Some 5)).
  - reflexivity.
  - vm_compute; reflexivity.
Defined.

(** From the link (node 10) to the button (node 5): one blur. *)
Lemma setFocus_blur_bound_witness :
  let w := sampleWorld (Some 10) false [] in
  ∃ w',
    setFocus 10 (Some 5) false w = Done (Some 5) w' ∧
    List.filter isBlur (newCalls w w') = [Blur 10] ∧
    length (List.filter isBlur (newCalls w w')) ≤ 2.
Proof.
  intros w. eexists. split; [vm_compute; reflexivity|].
  split; [vm_compute; reflexivity|].
  refine (proj1 (setFocus_blur_bound 10 (Some 5) false w (Some 5) _ _)).
  vm_compute; reflexivity.
Defined.
